(** * OSC Query JS: a shallow embedding of the address-space tree, the HTTP
    query endpoint and the subscription filter

    Sources embedded here:
    - [lib/OSCNode.js]        (OSCNode, getTypeString, serializeRange,
                               assembleFullPath, allNull),
    - [lib/OSCQueryServer.js] (OSCQueryServer: _handleGet, _getNodeForPath,
                               start, addMethod, removeMethod, setValue,
                               unsetValue),
    - [Main.js]               (VRChatOSCQuery: shouldProcessMessage,
                               pathMatches, subscribe, unsubscribe,
                               subscribeToAllPaths).

    Modelling conventions.
    - A JavaScript string is a [string] (a sequence of code units).
    - An optional property is an [option]; [None] stands for [undefined].
      For the typed fields of the JSDoc ([description : string],
      [access : number], [tags : Array], [critical : boolean],
      [arguments : Array]) the JavaScript truthiness tests are written out:
      a string is truthy iff it is not empty, an array is always truthy.
    - The [_children] object of a node is used as a dictionary and is a
      [gmap string OSCNode]: [path in this._children] is the presence of
      the key (property names inherited from [Object.prototype] are not
      modelled), and the enumeration order of the keys is not modelled.
    - Nodes are mutable objects linked by parent pointers.  A reference to
      a node is a [Cursor]: the node together with the chain of its
      ancestors (nearest first), each with the key under which the walk
      left it.  [node.parent] is the head of that chain, and a mutation of
      the node is written back through the chain by [root_of].
    - The description given to [addMethod] and its [arguments] array are
      values: that the node and the caller share these objects is not
      modelled.
    - [JSON.stringify] is modelled on abstract syntax: the body of a
      response is the JSON document, not its characters.
    - The HTTP handler is modelled from [_handleGet] on: its inputs are
      [url.pathname] and [url.search] as the [URL] parser delivers them. *)

From stdpp Require Import gmap strings list fin_maps.
From Stdlib Require Import ZArith QArith.
Close Scope Q_scope.
Set Warnings "-register-all,-clear-no-such-hyp".

(* ================================================================== *)
(** * Part I: the model                                                *)
(* ================================================================== *)

(** ** JavaScript strings *)

Module JsString.

(** [s.startsWith(searchString)] *)
Fixpoint startsWith (s searchString : string) {struct searchString} : bool :=
  match searchString with
  | EmptyString => true
  | String c rest =>
      match s with
      | EmptyString => false
      | String d s' => if decide (c = d) then startsWith s' rest else false
      end
  end.

(** [s.includes(searchString)] *)
Fixpoint includes (s searchString : string) : bool :=
  startsWith s searchString ||
  match s with
  | EmptyString => false
  | String _ s' => includes s' searchString
  end.

(** [s.endsWith(searchString)]: some suffix of [s] is [searchString]. *)
Fixpoint endsWith (s searchString : string) : bool :=
  bool_decide (s = searchString) ||
  match s with
  | EmptyString => false
  | String _ s' => endsWith s' searchString
  end.

(** [s.slice(0, -1)]: all but the last code unit. *)
Fixpoint slice_0_minus1 (s : string) : string :=
  match s with
  | EmptyString => EmptyString
  | String c s' =>
      match s' with
      | EmptyString => EmptyString
      | String _ _ => String c (slice_0_minus1 s')
      end
  end.

(** [s.substring(1)] *)
Definition substring_1 (s : string) : string :=
  match s with
  | EmptyString => EmptyString
  | String _ s' => s'
  end.

Fixpoint drop (n : nat) (s : string) : string :=
  match n, s with
  | O, _ => s
  | S _, EmptyString => EmptyString
  | S n', String _ s' => drop n' s'
  end.

(** [s.replace(pattern, replacement)] for a string [pattern]: only the
    first occurrence is replaced.  (The [$] escapes of the replacement
    text are not modelled; the source replaces by the empty string.) *)
Fixpoint replace (s pattern replacement : string) : string :=
  if startsWith s pattern then replacement +:+ drop (String.length pattern) s
  else match s with
       | EmptyString => EmptyString
       | String c s' => String c (replace s' pattern replacement)
       end.

(** [s.split(separator)] for a non-empty [separator].  [skip] counts the
    code units of a separator just matched that are still to be passed
    over; [cur] is the piece being collected. *)
Fixpoint split_go (separator : string) (skip : nat) (cur : string) (s : string)
  : list string :=
  match s with
  | EmptyString => [cur]
  | String c s' =>
      match skip with
      | S k => split_go separator k cur s'
      | O =>
          if startsWith s separator
          then cur :: split_go separator (String.length separator - 1) EmptyString s'
          else split_go separator O (cur +:+ String c EmptyString) s'
      end
  end.

Definition split (s separator : string) : list string :=
  split_go separator O EmptyString s.

End JsString.

(** ** JavaScript values and JSON documents *)

(** The values the model stores and serializes.  A number is a rational
    (NaN and the infinities are left out). *)
Inductive JsValue : Type :=
| JsUndefined
| JsNull
| JsBool (b : bool)
| JsNumber (q : Q)
| JsString (s : string)
| JsArray (elems : list JsValue)
| JsObject (props : list (string * JsValue)).

(** A JSON document: what [JSON.stringify] writes.  There is no
    [undefined] in JSON. *)
Inductive Json : Type :=
| JNull
| JBool (b : bool)
| JNumber (q : Q)
| JString (s : string)
| JArray (elems : list Json)
| JObject (members : list (string * Json)).

(** [JSON.stringify(v)]: [undefined] at top level gives no document; an
    [undefined] array element is written as [null]; a property whose value
    is [undefined] is left out of its object. *)
Fixpoint JSON_stringify (v : JsValue) : option Json :=
  match v with
  | JsUndefined => None
  | JsNull => Some JNull
  | JsBool b => Some (JBool b)
  | JsNumber q => Some (JNumber q)
  | JsString s => Some (JString s)
  | JsArray elems =>
      Some (JArray (map (fun e => default JNull (JSON_stringify e)) elems))
  | JsObject props =>
      Some (JObject
        ((fix members (ps : list (string * JsValue)) : list (string * Json) :=
            match ps with
            | [] => []
            | (k, e) :: ps' =>
                match JSON_stringify e with
                | Some j => (k, j) :: members ps'
                | None => members ps'
                end
            end) props))
  end.

(** Property read [o[k]] on an object built as a property list. *)
Fixpoint props_get (k : string) (props : list (string * JsValue)) : JsValue :=
  match props with
  | [] => JsUndefined
  | (k', v) :: rest => if decide (k = k') then v else props_get k rest
  end.

Definition js_get (o : JsValue) (k : string) : JsValue :=
  match o with
  | JsObject props => props_get k props
  | _ => JsUndefined
  end.

(** [k in o] *)
Definition js_has (o : JsValue) (k : string) : bool :=
  match o with
  | JsObject props => bool_decide (k ∈ map fst props)
  | _ => false
  end.

(** Member lookup in a JSON object. *)
Fixpoint members_get (k : string) (ms : list (string * Json)) : option Json :=
  match ms with
  | [] => None
  | (k', j) :: rest => if decide (k = k') then Some j else members_get k rest
  end.

Definition json_get (j : Json) (k : string) : option Json :=
  match j with
  | JObject ms => members_get k ms
  | _ => None
  end.

Definition jsNumberOfZ (z : Z) : JsValue := JsNumber (inject_Z z).

(** [v === undefined] *)
Definition isUndefined (v : JsValue) : bool :=
  match v with
  | JsUndefined => true
  | _ => false
  end.

(** [v == z] for a number literal [z].  In this model the left operand is
    [undefined] or a number, and [==] between numbers is numeric equality. *)
Definition looseEqNumber (v : JsValue) (z : Z) : bool :=
  match v with
  | JsNumber q => Qeq_bool q (inject_Z z)
  | _ => false
  end.

(** Truthiness of the optional typed values the sources test. *)
Definition truthyString (o : option string) : bool :=
  match o with
  | Some s => negb (bool_decide (s = EmptyString))
  | None => false
  end.

Definition truthyNumber (o : option Z) : bool :=
  match o with
  | Some z => negb (Z.eqb z 0)
  | None => false
  end.

(** [a || b] on optional values of one type. *)
Definition orString (a b : option string) : option string :=
  if truthyString a then a else b.

Definition orNumber (a b : option Z) : option Z :=
  if truthyNumber a then a else b.

Definition jsOfString (o : option string) : JsValue :=
  match o with Some s => JsString s | None => JsUndefined end.

Definition jsOfNumber (o : option Z) : JsValue :=
  match o with Some z => jsNumberOfZ z | None => JsUndefined end.

(** ** lib/OSCNode.js *)

(** [OSCQAccess] *)
Module OSCQAccess.
Definition NO_VALUE : Z := 0.
Definition READONLY : Z := 1.
Definition WRITEONLY : Z := 2.
Definition READWRITE : Z := 3.
End OSCQAccess.

(** The [type] of an argument: one type code, or an array of types. *)
Inductive OSCType : Type :=
| OSCTypeSimple (code : string)
| OSCTypeArray (types : list OSCType).

Fixpoint getTypeString (type : OSCType) : string :=
  match type with
  | OSCTypeArray types =>
      "[" +:+ String.concat "" (map getTypeString types) +:+ "]"
  | OSCTypeSimple code => code
  end.

(** The [range] of an argument: an object [{min, max, vals}], or an array of
    ranges whose entries may be [null]. *)
Inductive Range : Type :=
| RangeObject (min max vals : JsValue)
| RangeArray (ranges : list (option Range)).

Fixpoint serializeRange (range : Range) : JsValue :=
  match range with
  | RangeArray ranges =>
      JsArray (map (fun r => match r with
                             | Some r' => serializeRange r'
                             | None => JsNull
                             end) ranges)
  | RangeObject min max vals =>
      JsObject [("MAX", max); ("MIN", min); ("VALS", vals)]
  end.

(** One entry of [arguments].  [arg_value] is what reading [arg.value]
    gives: [JsUndefined] when the property is absent. *)
Record Argument : Type := mkArgument {
  arg_type : OSCType;
  arg_value : JsValue;
  arg_range : option Range;
  arg_clipmode : option string
}.

(** The object given to [setOpts] and [addMethod]. *)
Record MethodDescription : Type := mkMethodDescription {
  description : option string;
  access : option Z;
  tags : option (list string);
  critical : option bool;
  arguments : option (list Argument)
}.

(** [{}] *)
Definition emptyDescription : MethodDescription :=
  mkMethodDescription None None None None None.

(** The class [OSCNode], without its [_parent] field: the parent of a node
    is given by the [Cursor] through which the node is reached. *)
Inductive OSCNode : Type := mkOSCNode {
  _name : string;
  _description : option string;
  _access : option Z;
  _tags : option (list string);
  _critical : option bool;
  _args : option (list Argument);
  _children : gmap string OSCNode
}.

(** [new OSCNode(name, parent)] *)
Definition new_OSCNode (name : string) : OSCNode :=
  mkOSCNode name None None None None None ∅.

Definition setOpts (node : OSCNode) (desc : MethodDescription) : OSCNode :=
  mkOSCNode (_name node) (description desc) (access desc) (tags desc)
            (critical desc) (arguments desc) (_children node).

Definition set_children (node : OSCNode) (children : gmap string OSCNode) : OSCNode :=
  mkOSCNode (_name node) (_description node) (_access node) (_tags node)
            (_critical node) (_args node) children.

Definition set_args (node : OSCNode) (args : list Argument) : OSCNode :=
  mkOSCNode (_name node) (_description node) (_access node) (_tags node)
            (_critical node) (Some args) (_children node).

(** [this._children[path] = child] *)
Definition put_child (node : OSCNode) (path : string) (child : OSCNode) : OSCNode :=
  set_children node (<[path := child]> (_children node)).

(** Errors thrown by the sources: [new Error(message)], and the
    [TypeError] raised by the engine on a property access on [undefined]. *)
Inductive JsError : Type :=
| Error (message : string)
| TypeError.

Definition IndexOutOfRange : JsError := Error "Argument index out of range".

Definition set_arg_value (arg : Argument) (value : JsValue) : Argument :=
  mkArgument (arg_type arg) value (arg_range arg) (arg_clipmode arg).

(** [this._args[arg_index]] for a number [arg_index] that passed the
    [arg_index >= this._args.length] test: [undefined] when negative. *)
Definition arg_at (args : list Argument) (arg_index : Z) : option Argument :=
  if (arg_index <? 0)%Z then None else args !! Z.to_nat arg_index.

Definition OSCNode_setValue (node : OSCNode) (arg_index : Z) (value : JsValue)
  : JsError + OSCNode :=
  match _args node with
  | None => inl IndexOutOfRange
  | Some args =>
      if (Z.of_nat (length args) <=? arg_index)%Z then inl IndexOutOfRange
      else match arg_at args arg_index with
           | None => inl TypeError
           | Some arg =>
               inr (set_args node
                      (<[Z.to_nat arg_index := set_arg_value arg value]> args))
           end
  end.

(** [delete this._args[arg_index].value] *)
Definition OSCNode_unsetValue (node : OSCNode) (arg_index : Z)
  : JsError + OSCNode :=
  match _args node with
  | None => inl IndexOutOfRange
  | Some args =>
      if (Z.of_nat (length args) <=? arg_index)%Z then inl IndexOutOfRange
      else match arg_at args arg_index with
           | None => inl TypeError
           | Some arg =>
               inr (set_args node
                      (<[Z.to_nat arg_index := set_arg_value arg JsUndefined]> args))
           end
  end.

Definition OSCNode_getValue (node : OSCNode) (arg_index : Z) : JsError + JsValue :=
  match _args node with
  | None => inr JsNull
  | Some args =>
      if (Z.of_nat (length args) <=? arg_index)%Z then inr JsNull
      else match arg_at args arg_index with
           | None => inl TypeError
           | Some arg => inr (arg_value arg)
           end
  end.

Definition has_args (node : OSCNode) : bool :=
  match _args node with Some _ => true | None => false end.

Definition isEmpty (node : OSCNode) : bool :=
  negb (has_args node) && (size (_children node) =? 0).

Definition isContainer (node : OSCNode) : bool :=
  negb (has_args node) && (0 <? size (_children node)).

Definition hasChild (node : OSCNode) (path : string) : bool :=
  bool_decide (is_Some (_children node !! path)).

Definition getChild (node : OSCNode) (path : string) : option OSCNode :=
  _children node !! path.

Definition removeChild (node : OSCNode) (path : string) : OSCNode :=
  if hasChild node path then set_children node (delete path (_children node))
  else node.

(** *** References to nodes *)

(** A node reached from the root: [focus] is the node, [trail] its
    ancestors from the parent up to the root, each with the key of the
    child slot the walk went through.  The slot of an ancestor is the
    focus itself (one shared object); [attach] writes the current state of
    the node into that slot. *)
Record Cursor : Type := mkCursor {
  focus : OSCNode;
  trail : list (OSCNode * string)
}.

Definition attach (parent : OSCNode) (key : string) (node : OSCNode) : OSCNode :=
  put_child parent key node.

(** The root object, as seen after the mutations made to [node]. *)
Fixpoint root_of (node : OSCNode) (trail : list (OSCNode * string)) : OSCNode :=
  match trail with
  | [] => node
  | (parent, key) :: up => root_of (attach parent key node) up
  end.

(** [assembleFullPath(node)]: [node.parent == null] is the empty trail. *)
Fixpoint assembleFullPath (node : OSCNode) (trail : list (OSCNode * string)) : string :=
  match trail with
  | [] => ""
  | (parent, key) :: up =>
      assembleFullPath (attach parent key node) up +:+ "/" +:+ _name node
  end.

(** [getOrCreateChild(path)], moving the reference to the child. *)
Definition getOrCreateChild (cur : Cursor) (path : string) : Cursor :=
  let node := focus cur in
  match getChild node path with
  | Some child => mkCursor child ((node, path) :: trail cur)
  | None =>
      let child := new_OSCNode path in
      mkCursor child ((put_child node path child, path) :: trail cur)
  end.

(** [allNull(arr)], on an array whose entries went through [?? null]:
    [None] is [null]. *)
Definition allNull {A : Type} (arr : list (option A)) : bool :=
  forallb (fun elem => match elem with None => true | Some _ => false end) arr.

(** [v ?? null], with [None] for the resulting [null]. *)
Definition coalesceNull (v : JsValue) : option JsValue :=
  match v with
  | JsUndefined | JsNull => None
  | _ => Some v
  end.

Definition nullable {A : Type} (f : A -> JsValue) (o : option A) : JsValue :=
  match o with Some a => f a | None => JsNull end.

(** The part of [serialize] guarded by [if (this._args)]. *)
Definition serialize_args (access : option Z) (args : list Argument)
  : list (string * JsValue) :=
  let arg_types := String.concat "" (map (fun arg => getTypeString (arg_type arg)) args) in
  let arg_values := map (fun arg => coalesceNull (arg_value arg)) args in
  let arg_ranges := map arg_range args in
  let arg_clipmodes := map arg_clipmode args in
  [("TYPE", JsString arg_types)]
  ++ (if negb (allNull arg_ranges)
      then [("RANGE", JsArray (map (nullable serializeRange) arg_ranges))]
      else [])
  ++ (if negb (allNull arg_clipmodes)
      then [("CLIPMODE", JsArray (map (nullable JsString) arg_clipmodes))]
      else [])
  ++ (match access with
      | Some a =>
          if negb (allNull arg_values) && ((a =? 1)%Z || (a =? 3)%Z)
          then [("VALUE", JsArray (map (nullable id) arg_values))]
          else []
      | None => []
      end).

(** [node.serialize()] for the node reached through [trail]. *)
Fixpoint serialize (trail : list (OSCNode * string)) (node : OSCNode) {struct node}
  : JsValue :=
  let full_path := assembleFullPath node trail in
  JsObject
    ([("FULL_PATH",
       JsString (if bool_decide (full_path = "") then "/" else full_path))]
     ++ (if truthyString (_description node)
         then [("DESCRIPTION", jsOfString (_description node))]
         else [])
     ++ (match _access node with
         | Some a => [("ACCESS", jsNumberOfZ a)]
         | None =>
             if isContainer node
             then [("ACCESS", jsNumberOfZ OSCQAccess.NO_VALUE)]
             else []
         end)
     ++ (match _tags node with
         | Some t => [("TAGS", JsArray (map JsString t))]
         | None => []
         end)
     ++ (match _critical node with
         | Some b => [("CRITICAL", JsBool b)]
         | None => []
         end)
     ++ (if 0 <? size (_children node)
         then [("CONTENTS",
                JsObject
                  (map_fold
                     (fun name child entries =>
                        (name, serialize ((node, name) :: trail) child) :: entries)
                     [] (_children node)))]
         else [])
     ++ (match _args node with
         | Some args => serialize_args (_access node) args
         | None => []
         end)).

(** ** lib/OSCQueryServer.js *)

(** The [opts] object of the constructor. *)
Record Options : Type := mkOptions {
  httpPort : option Z;
  oscPort : option Z;
  bindAddress : option string;
  oscQueryHostName : option string;
  serviceName : option string;
  rootDescription : option string;
  oscIp : option string;
  oscTransport : option string
}.

(** [{}] *)
Definition noOptions : Options :=
  mkOptions None None None None None None None None.

Definition set_httpPort (opts : Options) (port : Z) : Options :=
  mkOptions (Some port) (oscPort opts) (bindAddress opts) (oscQueryHostName opts)
            (serviceName opts) (rootDescription opts) (oscIp opts) (oscTransport opts).

Definition EXTENSIONS : JsValue :=
  JsObject [("ACCESS", JsBool true); ("VALUE", JsBool true); ("RANGE", JsBool true);
            ("DESCRIPTION", JsBool true); ("TAGS", JsBool true);
            ("CRITICAL", JsBool true); ("CLIPMODE", JsBool true)].

Definition VALID_ATTRIBUTES : list string :=
  ["FULL_PATH"; "CONTENTS"; "TYPE"; "ACCESS"; "RANGE"; "DESCRIPTION"; "TAGS";
   "CRITICAL"; "CLIPMODE"; "VALUE"; "HOST_INFO"].

(** What the handler leaves in [res]: the status code (200 unless set), the
    headers it set, and the document it wrote ([None]: [res.end()] alone,
    an empty body). *)
Record Response : Type := mkResponse {
  statusCode : Z;
  headers : list (string * string);
  body : option Json
}.

(** [res.statusCode = code; res.end()] *)
Definition respondStatus (code : Z) : Response := mkResponse code [] None.

Definition respondJson (json : JsValue) : Response :=
  mkResponse 200 [("Content-Type", "application/json")] (JSON_stringify json).

(** The state of an [OSCQueryServer] that the modelled methods read and
    write (the HTTP server and the mDNS handles are left out). *)
Record OSCQueryServer : Type := mkOSCQueryServer {
  _opts : Options;
  _root : OSCNode
}.

Definition new_OSCQueryServer (opts : Options) : OSCQueryServer :=
  mkOSCQueryServer opts
    (setOpts (new_OSCNode "")
       (mkMethodDescription (orString (rootDescription opts) (Some "root node"))
                            (Some OSCQAccess.NO_VALUE) None None None)).

(** [path.split("/").filter(p => p !== "")] *)
Definition path_split (path : string) : list string :=
  filter (fun p => p ≠ "") (JsString.split path "/").

(** The loop [for (const path_component of path_split)] of [_handleGet] and
    [_getNodeForPath]: [None] when a component is not a child. *)
Fixpoint walk (cur : Cursor) (components : list string) : option Cursor :=
  match components with
  | [] => Some cur
  | path_component :: rest =>
      match getChild (focus cur) path_component with
      | Some child =>
          walk (mkCursor child ((focus cur, path_component) :: trail cur)) rest
      | None => None
      end
  end.

Definition root_cursor (srv : OSCQueryServer) : Cursor := mkCursor (_root srv) [].

Definition _getNodeForPath (srv : OSCQueryServer) (path : string) : option Cursor :=
  walk (root_cursor srv) (path_split path).

Definition hostInfo (opts : Options) : JsValue :=
  JsObject
    [("NAME", jsOfString (oscQueryHostName opts));
     ("EXTENSIONS", EXTENSIONS);
     ("OSC_IP", jsOfString (orString (oscIp opts)
                             (orString (bindAddress opts) (Some "0.0.0.0"))));
     ("OSC_PORT", jsOfNumber (orNumber (oscPort opts) (httpPort opts)));
     ("OSC_TRANSPORT", jsOfString (orString (oscTransport opts) (Some "UDP")))].

(** [VALID_ATTRIBUTES.includes(query)] *)
Definition validAttribute (query : option string) : bool :=
  match query with
  | Some q => bool_decide (q ∈ VALID_ATTRIBUTES)
  | None => false
  end.

(** [_handleGet(url, res)], on [url.pathname] and [url.search]. *)
Definition _handleGet (srv : OSCQueryServer) (pathname search : string) : Response :=
  let query :=
    if 0 <? String.length search then Some (JsString.substring_1 search) else None in
  let components := path_split pathname in
  if truthyString query && negb (validAttribute query) then respondStatus 400
  else if bool_decide (query = Some "HOST_INFO") then respondJson (hostInfo (_opts srv))
  else
    match walk (root_cursor srv) components with
    | None => respondStatus 404
    | Some node =>
        match query with
        | Some q =>
            if negb (truthyString query)
            then respondJson (serialize (trail node) (focus node))
            else
              let serialized := serialize (trail node) (focus node) in
              let access := js_get serialized "ACCESS" in
              if negb (isUndefined access)
                 && (looseEqNumber access 0 || looseEqNumber access 2)
                 && bool_decide (q = "VALUE")
              then respondStatus 204
              else respondJson (JsObject [(q, js_get serialized q)])
        | None => respondJson (serialize (trail node) (focus node))
        end
    end.

(** [_httpHandler(req, res)], on [req.method] and the parsed [req.url]. *)
Definition _httpHandler (srv : OSCQueryServer) (method pathname search : string)
  : Response :=
  if negb (bool_decide (method = "GET")) then respondStatus 400
  else _handleGet srv pathname search.

(** [start()]: [freePort] is the port [portfinder] finds when none is
    configured.  Returns the server and the host information object. *)
Definition start (srv : OSCQueryServer) (freePort : Z) : OSCQueryServer * JsValue :=
  let opts :=
    if negb (truthyNumber (httpPort (_opts srv)))
    then set_httpPort (_opts srv) freePort
    else _opts srv in
  (mkOSCQueryServer opts (_root srv),
   JsObject
     [("name", jsOfString (oscQueryHostName opts));
      ("extensions", EXTENSIONS);
      ("oscIp", jsOfString (orString (oscIp opts)
                             (orString (bindAddress opts) (Some "0.0.0.0"))));
      ("oscPort", jsOfNumber (orNumber (oscPort opts) (httpPort opts)));
      ("oscTransport", jsOfString (orString (oscTransport opts) (Some "UDP")))]).

Definition addMethod (srv : OSCQueryServer) (path : string) (params : MethodDescription)
  : OSCQueryServer :=
  let node := fold_left getOrCreateChild (path_split path) (root_cursor srv) in
  mkOSCQueryServer (_opts srv) (root_of (setOpts (focus node) params) (trail node)).

(** The loop of [removeMethod]: while the node has a parent and is empty,
    remove it from its parent and go on with the parent.  Returns the
    root. *)
Fixpoint removeMethod_loop (node : OSCNode) (trail : list (OSCNode * string)) : OSCNode :=
  match trail with
  | [] => node
  | (parent, key) :: up =>
      if isEmpty node
      then removeMethod_loop (removeChild (attach parent key node) (_name node)) up
      else root_of node trail
  end.

Definition removeMethod (srv : OSCQueryServer) (path : string) : OSCQueryServer :=
  match _getNodeForPath srv path with
  | None => srv
  | Some node =>
      mkOSCQueryServer (_opts srv)
        (removeMethod_loop (setOpts (focus node) emptyDescription) (trail node))
  end.

(** The outcome of a method that may throw: the server state in both
    cases (a thrown error leaves the state reached when it was thrown). *)
Inductive Outcome : Type :=
| Returned (srv : OSCQueryServer)
| Thrown (err : JsError) (srv : OSCQueryServer).

Definition setValue (srv : OSCQueryServer) (path : string) (arg_index : Z)
  (value : JsValue) : Outcome :=
  match _getNodeForPath srv path with
  | Some node =>
      match OSCNode_setValue (focus node) arg_index value with
      | inr node' => Returned (mkOSCQueryServer (_opts srv) (root_of node' (trail node)))
      | inl err => Thrown err srv
      end
  | None => Returned srv
  end.

Definition unsetValue (srv : OSCQueryServer) (path : string) (arg_index : Z) : Outcome :=
  match _getNodeForPath srv path with
  | Some node =>
      match OSCNode_unsetValue (focus node) arg_index with
      | inr node' => Returned (mkOSCQueryServer (_opts srv) (root_of node' (trail node)))
      | inl err => Thrown err srv
      end
  | None => Returned srv
  end.

(** ** Main.js: the subscription filter of [VRChatOSCQuery] *)

(** The two fields of [VRChatOSCQuery] the filter reads and writes. *)
Record VRChatOSCQuery : Type := mkVRChatOSCQuery {
  subscribedPaths : gset string;
  subscribeToAll : bool
}.

(** The constructor: [new Set()] and [true]. *)
Definition new_VRChatOSCQuery : VRChatOSCQuery := mkVRChatOSCQuery ∅ true.

Definition pathMatches (address pattern : string) : bool :=
  if bool_decide (pattern = address) then true
  else if JsString.includes pattern "(!?"
          && (let basePattern := default "" (JsString.split pattern "(!?" !! 0%nat) in
              let excludePattern :=
                JsString.replace (default "" (JsString.split pattern "(!?" !! 1%nat)) ")" "" in
              JsString.startsWith address basePattern
              && negb (JsString.includes address excludePattern))
  then true
  else if JsString.endsWith pattern "*"
  then JsString.startsWith address (JsString.slice_0_minus1 pattern)
  else false.

Definition shouldProcessMessage (f : VRChatOSCQuery) (address : string) : bool :=
  if subscribeToAll f then true
  else existsb (fun subscribedPath => pathMatches address subscribedPath)
               (elements (subscribedPaths f)).

Definition subscribe (f : VRChatOSCQuery) (path : string) : VRChatOSCQuery :=
  mkVRChatOSCQuery ({[path]} ∪ subscribedPaths f) false.

Definition unsubscribe (f : VRChatOSCQuery) (path : string) : VRChatOSCQuery :=
  let paths := subscribedPaths f ∖ {[path]} in
  mkVRChatOSCQuery paths (if size paths =? 0 then true else subscribeToAll f).

Definition subscribeToAllPaths (f : VRChatOSCQuery) : VRChatOSCQuery :=
  mkVRChatOSCQuery ∅ true.

(** ** Further methods of [OSCNode] *)

(** [addChild(path, node)]: throws when [path] is already a child. *)
Definition OSCNode_addChild (node : OSCNode) (path : string) (child : OSCNode)
  : JsError + OSCNode :=
  if hasChild node path
  then inl (Error ("The child " +:+ path +:+ " already exist"))
  else inr (put_child node path child).

(** [getOrCreateChild(path)] on the node itself: the node after the call
    and the child returned. *)
Definition OSCNode_getOrCreateChild (node : OSCNode) (path : string)
  : OSCNode * OSCNode :=
  let node' :=
    if negb (hasChild node path) then put_child node path (new_OSCNode path)
    else node in
  (node', default (new_OSCNode path) (getChild node' path)).

(** ** Further methods of [VRChatOSCQuery] (Main.js) *)

(** The handlers [handleOSCMessage] chooses between. *)
Inductive Handler : Type :=
| HandleAvatarParameter
| HandleChatbox
| HandleInput.

(** The routing of [handleOSCMessage(address, values)]: the handler it
    calls, if any (the handlers themselves only log). *)
Definition handleOSCMessage (address : string) : option Handler :=
  if JsString.startsWith address "/avatar/parameters/" then Some HandleAvatarParameter
  else if JsString.startsWith address "/chatbox/" then Some HandleChatbox
  else if JsString.startsWith address "/input/" then Some HandleInput
  else None.

(** [paramName] of [handleAvatarParameter]. *)
Definition paramName (address : string) : string :=
  JsString.replace address "/avatar/parameters/" "".

(** The ['message'] callback of [setupOSCServer] on [[address, ...values]]:
    the call of [handleOSCMessage] it makes, if it makes one. *)
Definition onMessage (f : VRChatOSCQuery) (address : string)
  : option (option Handler) :=
  if shouldProcessMessage f address then Some (handleOSCMessage address) else None.

(* ================================================================== *)
(** * Part II: vocabulary of the statements and of the proofs          *)
(* ================================================================== *)

(** ** Sequences of filter operations *)

Inductive FilterOp : Type :=
| OpSubscribe (path : string)
| OpUnsubscribe (path : string)
| OpSubscribeToAllPaths.

Definition apply_op (f : VRChatOSCQuery) (op : FilterOp) : VRChatOSCQuery :=
  match op with
  | OpSubscribe path => subscribe f path
  | OpUnsubscribe path => unsubscribe f path
  | OpSubscribeToAllPaths => subscribeToAllPaths f
  end.

Definition run_ops (ops : list FilterOp) (f : VRChatOSCQuery) : VRChatOSCQuery :=
  fold_left apply_op ops f.

(** Accept-all mode is on exactly when no pattern is subscribed. *)
Definition accept_all_iff_empty (f : VRChatOSCQuery) : Prop :=
  subscribeToAll f = true ↔ subscribedPaths f = ∅.

(** ** Prefixes and occurrences in strings *)

Definition Prefix (pre s : string) : Prop := ∃ rest, s = pre +:+ rest.

Definition Suffix (suf s : string) : Prop := ∃ front, s = front +:+ suf.

Definition Occurs (sub s : string) : Prop := ∃ l r, s = l +:+ sub +:+ r.

(** [s] is [l], then [tok], then [r], and no occurrence of [tok] in [s]
    starts further left. *)
Definition FirstOccurrence (tok s l r : string) : Prop :=
  s = l +:+ tok +:+ r
  ∧ ∀ l' r', s = l' +:+ tok +:+ r' → String.length l ≤ String.length l'.

(** What precedes the first [tok] in [s]; all of [s] when there is none. *)
Definition PieceBefore (tok s piece : string) : Prop :=
  (∃ r, FirstOccurrence tok s piece r) ∨ (¬ Occurs tok s ∧ piece = s).

(** [s] with its first [tok] deleted; [s] itself when there is none. *)
Definition FirstRemoved (tok s s' : string) : Prop :=
  (∃ l r, FirstOccurrence tok s l r ∧ s' = l +:+ r) ∨ (¬ Occurs tok s ∧ s' = s).

(** The leftmost occurrence, computed. *)
Fixpoint find_first (tok s : string) {struct s} : option (string * string) :=
  if JsString.startsWith s tok
  then Some (EmptyString, JsString.drop (String.length tok) s)
  else match s with
       | EmptyString => None
       | String c s' =>
           match find_first tok s' with
           | Some (l, r) => Some (String c l, r)
           | None => None
           end
       end.

(** ** The pattern grammar of the subscription filter *)

Definition negativeToken : string := "(!?".

(** As [pathMatches] computes it: the exclude string is the piece of the
    pattern between its first token and the next token (or the end), with
    the first [")"] of that piece deleted. *)
Definition ExcludeString (rest excl : string) : Prop :=
  ∃ piece, PieceBefore negativeToken rest piece ∧ FirstRemoved ")" piece excl.

Definition MatchesExact (pattern address : string) : Prop := pattern = address.

Definition MatchesPrefixWildcard (pattern address : string) : Prop :=
  ∃ prefix, pattern = prefix +:+ "*" ∧ Prefix prefix address.

Definition MatchesNegative (pattern address : string) : Prop :=
  ∃ basePattern rest excludePattern,
    FirstOccurrence negativeToken pattern basePattern rest
    ∧ ExcludeString rest excludePattern
    ∧ Prefix basePattern address
    ∧ ¬ Occurs excludePattern address.

Definition PatternMatches (pattern address : string) : Prop :=
  MatchesExact pattern address
  ∨ MatchesPrefixWildcard pattern address
  ∨ MatchesNegative pattern address.

(** The negative rule in the words of the specification: the exclude
    string is the part of the pattern after the token, up to the next
    [")"]. *)
Definition SpecExcludeString (rest excl : string) : Prop :=
  PieceBefore ")" rest excl.

Definition SpecMatchesNegative (pattern address : string) : Prop :=
  ∃ basePattern rest excludePattern,
    FirstOccurrence negativeToken pattern basePattern rest
    ∧ SpecExcludeString rest excludePattern
    ∧ Prefix basePattern address
    ∧ ¬ Occurs excludePattern address.

Definition SpecPatternMatches (pattern address : string) : Prop :=
  MatchesExact pattern address
  ∨ MatchesPrefixWildcard pattern address
  ∨ SpecMatchesNegative pattern address.

(** A pattern written as the sources document it: what follows its first
    token, if it has one, is a text without [")"] and without token, closed
    by one [")"]. *)
Definition WellFormedPattern (pattern : string) : Prop :=
  ∀ basePattern rest,
    FirstOccurrence negativeToken pattern basePattern rest →
    ∃ text, rest = text +:+ ")"
            ∧ ¬ Occurs ")" text
            ∧ ¬ Occurs negativeToken text.

(** The guard of the second [if] of [pathMatches], with its inner test. *)
Definition negativeTest (address pattern : string) : bool :=
  JsString.includes pattern "(!?"
  && (let basePattern := default "" (JsString.split pattern "(!?" !! 0%nat) in
      let excludePattern :=
        JsString.replace (default "" (JsString.split pattern "(!?" !! 1%nat)) ")" "" in
      JsString.startsWith address basePattern
      && negb (JsString.includes address excludePattern)).

(** ** Serialized nodes *)

(** The properties of [serialize()] that do not depend on [_args]. *)
Definition ownKeys : list string :=
  ["FULL_PATH"; "DESCRIPTION"; "ACCESS"; "TAGS"; "CRITICAL"; "CONTENTS"].

(** A stored value that [?? null] leaves as it is. *)
Definition NonNull (v : JsValue) : Prop := v ≠ JsUndefined ∧ v ≠ JsNull.

(** The entry of the [VALUE] list for an argument. *)
Definition valueEntry (arg : Argument) : JsValue :=
  nullable id (coalesceNull (arg_value arg)).

(** ** Host information *)

(** [EXTENSIONS] as it is written in a response. *)
Definition EXTENSIONS_json : Json :=
  JObject [("ACCESS", JBool true); ("VALUE", JBool true); ("RANGE", JBool true);
           ("DESCRIPTION", JBool true); ("TAGS", JBool true);
           ("CRITICAL", JBool true); ("CLIPMODE", JBool true)].

(** The [NAME] member: present when a host name is configured. *)
Definition nameMember (opts : Options) : list (string * Json) :=
  match oscQueryHostName opts with
  | Some name => [("NAME", JString name)]
  | None => []
  end.

(** The advertised transport: the configured one, ["UDP"] by default (and
    when the configured text is empty). *)
Definition transportOf (opts : Options) : string :=
  match oscTransport opts with
  | Some t => if decide (t = "") then "UDP" else t
  | None => "UDP"
  end.

Definition jsonResponse (j : Json) : Response :=
  mkResponse 200 [("Content-Type", "application/json")] (Some j).

(** The access of a node as [serialize()] writes it: the node's own access,
    0 for a container without one, none otherwise. *)
Definition serializedAccess (node : OSCNode) : option Z :=
  match _access node with
  | Some a => Some a
  | None => if isContainer node then Some OSCQAccess.NO_VALUE else None
  end.

(** The entry of the [VALUE] list of a response for an argument. *)
Definition valueEntryJson (arg : Argument) : Json :=
  default JNull (JSON_stringify (valueEntry arg)).

(** The node has arguments, one of them holds a value, and the access is
    1 or 3: the condition under which [serialize()] sets [VALUE]. *)
Definition ValueReadable (node : OSCNode) : Prop :=
  (∃ args arg, _args node = Some args ∧ arg ∈ args ∧ NonNull (arg_value arg))
  ∧ (_access node = Some OSCQAccess.READONLY
     ∨ _access node = Some OSCQAccess.READWRITE).

(** The test of [_handleGet] that answers 204 to the selector [VALUE], on
    the serialized access. *)
Definition unreadable (node : OSCNode) : bool :=
  bool_decide (serializedAccess node = Some 0%Z)
  || bool_decide (serializedAccess node = Some 2%Z).

(** ** Trees *)

(** The node found by following child slots from [node], if any. *)
Fixpoint getNode (node : OSCNode) (components : list string) : option OSCNode :=
  match components with
  | [] => Some node
  | c :: rest =>
      match _children node !! c with
      | Some child => getNode child rest
      | None => None
      end
  end.

(** Every node hangs in its parent under its own name.  This holds for the
    trees the server builds: [getOrCreateChild(path)] is the only place
    where a node is created and stored, as [new OSCNode(path, this)] under
    the key [path]. *)
Inductive well_named : OSCNode → Prop :=
| well_named_node node :
    (∀ key child,
       _children node !! key = Some child → _name child = key ∧ well_named child) →
    well_named node.

(** The calls that change the tree of a server. *)
Inductive ServerOp : Type :=
| OpAddMethod (path : string) (params : MethodDescription)
| OpRemoveMethod (path : string)
| OpSetValue (path : string) (arg_index : Z) (value : JsValue)
| OpUnsetValue (path : string) (arg_index : Z).

Definition state_of (o : Outcome) : OSCQueryServer :=
  match o with
  | Returned srv => srv
  | Thrown _ srv => srv
  end.

Definition apply_server_op (srv : OSCQueryServer) (op : ServerOp) : OSCQueryServer :=
  match op with
  | OpAddMethod path params => addMethod srv path params
  | OpRemoveMethod path => removeMethod srv path
  | OpSetValue path arg_index value => state_of (setValue srv path arg_index value)
  | OpUnsetValue path arg_index => state_of (unsetValue srv path arg_index)
  end.

Definition run_server_ops (ops : list ServerOp) (srv : OSCQueryServer) : OSCQueryServer :=
  fold_left apply_server_op ops srv.

(** The change made through a reference, seen from the root: [f] applied
    to the node at [components], every node above it taking the new child
    in its slot. *)
Fixpoint update_at (components : list string) (f : OSCNode → OSCNode) (node : OSCNode)
  : OSCNode :=
  match components with
  | [] => f node
  | c :: rest =>
      match _children node !! c with
      | Some child => put_child node c (update_at rest f child)
      | None => node
      end
  end.

(** The same when the walk creates the children it does not find. *)
Fixpoint upsert_at (components : list string) (f : OSCNode → OSCNode) (node : OSCNode)
  : OSCNode :=
  match components with
  | [] => f node
  | c :: rest =>
      put_child node c
        (upsert_at rest f (default (new_OSCNode c) (_children node !! c)))
  end.

(** The effect of [removeMethod] on the subtree of [node], for a target
    at [components] below it: the loop seen from above. *)
Fixpoint prune (components : list string) (node : OSCNode) : OSCNode :=
  match components with
  | [] => setOpts node emptyDescription
  | c :: rest =>
      match _children node !! c with
      | Some child =>
          let child' := prune rest child in
          if isEmpty child'
          then removeChild (put_child node c child') (_name child')
          else put_child node c child'
      | None => node
      end
  end.

(** ["/" + c1 + "/" + c2 + ...] *)
Definition joinPath (components : list string) : string :=
  String.concat "" (map (λ c, "/" +:+ c) components).

(** The full path the tree gives to the node stored at [path]. *)
Definition canonicalPath (path : string) : string :=
  match path_split path with
  | [] => "/"
  | components => joinPath components
  end.

(** A path component: not empty, without ["/"]. *)
Definition Segment (s : string) : Prop := s ≠ "" ∧ ¬ Occurs "/" s.

(** Below [x0] there is nothing but the walk's next step: a node that is
    empty once that child is removed (for the target itself, whose
    arguments have been cleared: a node without children). *)
Definition EmptyApartFrom (x0 : OSCNode) (below : list string) : Prop :=
  match below with
  | [] => _children x0 = ∅
  | c :: _ => _args x0 = None ∧ delete c (_children x0) = ∅
  end.

(** ** Sample servers *)

(** [addMethod("/chatbox/input", ...)] of [setupOSCQueryEndpoints]. *)
Definition chatboxInput : MethodDescription :=
  mkMethodDescription (Some "VRChat Chatbox Input") (Some OSCQAccess.WRITEONLY)
    None None
    (Some [mkArgument (OSCTypeSimple "s") JsUndefined None None;
           mkArgument (OSCTypeSimple "T") JsUndefined None None]).

(** A readable method with a range and a stored value. *)
Definition volume : MethodDescription :=
  mkMethodDescription (Some "volume") (Some OSCQAccess.READWRITE) None None
    (Some [mkArgument (OSCTypeSimple "f") (JsNumber (1 # 2))
             (Some (RangeObject (JsNumber 0) (JsNumber 1) JsUndefined)) None]).

Definition sampleServer : OSCQueryServer :=
  addMethod (addMethod (new_OSCQueryServer noOptions) "/chatbox/input" chatboxInput)
            "/audio/volume" volume.

(** ** Vocabulary of the further properties *)

(** [query] of [_handleGet]: the text after the ["?"], [None] for [null]. *)
Definition queryOf (search : string) : option string :=
  if 0 <? String.length search then Some (JsString.substring_1 search) else None.

(** The selector is refused: a non-empty text outside [VALID_ATTRIBUTES]. *)
Definition BadSelector (search : string) : Prop :=
  ∃ q, queryOf search = Some q ∧ q ≠ "" ∧ q ∉ VALID_ATTRIBUTES.

(** The keys of an object, in order. *)
Definition js_keys (o : JsValue) : list string :=
  match o with
  | JsObject props => map fst props
  | _ => []
  end.

(** [arg_types] of [serialize()]. *)
Definition typeString (args : list Argument) : string :=
  String.concat "" (map (λ arg, getTypeString (arg_type arg)) args).

(** The members [JSON.stringify] writes for the properties of an object. *)
Fixpoint stringify_members (props : list (string * JsValue)) : list (string * Json) :=
  match props with
  | [] => []
  | (k, e) :: props' =>
      match JSON_stringify e with
      | Some j => (k, j) :: stringify_members props'
      | None => stringify_members props'
      end
  end.

(** The properties of [contents] in [serialize()]. *)
Definition serializedChildren (trail : list (OSCNode * string)) (node : OSCNode)
  : list (string * JsValue) :=
  map_fold (λ name child entries,
              (name, serialize ((node, name) :: trail) child) :: entries)
           [] (_children node).

(** The node has an argument at [arg_index]. *)
Definition SlotExists (node : OSCNode) (arg_index : Z) : Prop :=
  ∃ args, _args node = Some args ∧ (0 <= arg_index < Z.of_nat (length args))%Z.

(** What [setValue] and [unsetValue] of [OSCNode] make of a node: the node
    itself when they throw. *)
Definition setValueAt (arg_index : Z) (value : JsValue) (node : OSCNode) : OSCNode :=
  match OSCNode_setValue node arg_index value with
  | inr node' => node'
  | inl _ => node
  end.

Definition unsetValueAt (arg_index : Z) (node : OSCNode) : OSCNode :=
  match OSCNode_unsetValue node arg_index with
  | inr node' => node'
  | inl _ => node
  end.

(** What [setOpts] overwrites, and the name. *)
Definition metadata (node : OSCNode)
  : string * option string * option Z * option (list string) * option bool
    * option (list Argument) :=
  (_name node, _description node, _access node, _tags node, _critical node,
   _args node).

(* ================================================================== *)
(** * Part III: lemmas and theorems                                    *)
(* ================================================================== *)

(** ** Facts on JavaScript strings *)

Module JsStringFacts.
Import JsString.

Lemma app_nil_l s : "" +:+ s = s.
Proof. reflexivity. Qed.

Lemma app_cons c s t : String c s +:+ t = String c (s +:+ t).
Proof. reflexivity. Qed.

Lemma app_nil_r s : s +:+ "" = s.
Proof. induction s as [| c s IH]; [done |]. by rewrite app_cons, IH. Qed.

Lemma app_assoc s t u : (s +:+ t) +:+ u = s +:+ t +:+ u.
Proof. induction s as [| c s IH]; [done |]. by rewrite !app_cons, IH. Qed.

Lemma app_length s t : String.length (s +:+ t) = String.length s + String.length t.
Proof. induction s as [| c s IH]; [done |]. rewrite app_cons. simpl. by rewrite IH. Qed.

Lemma app_eq_nil s t : s +:+ t = "" → s = "" ∧ t = "".
Proof. destruct s; [done |]. by rewrite app_cons. Qed.

Lemma length_zero s : String.length s = 0 → s = "".
Proof. by destruct s. Qed.

Lemma drop_app s t : drop (String.length s) (s +:+ t) = t.
Proof. induction s as [| c s IH]; [by destruct t |]. by rewrite app_cons. Qed.

Lemma drop_nil n : drop n "" = "".
Proof. by destruct n. Qed.

(** Two splits of one string at the same length are the same split. *)
Lemma app_inv_length l l' r r' :
  l +:+ r = l' +:+ r' → String.length l = String.length l' → l = l' ∧ r = r'.
Proof.
  revert l'. induction l as [| c l IH]; intros [| c' l'] Heq Hlen;
    try done.
  rewrite !app_cons in Heq. simplify_eq/=.
  destruct (IH l') as [-> ->]; auto.
Qed.

(** *** [startsWith] *)

Lemma startsWith_app s t : startsWith (s +:+ t) s = true.
Proof.
  induction s as [| c s IH]; [done |].
  rewrite app_cons. simpl. by rewrite decide_True.
Qed.

Lemma startsWith_true s p :
  startsWith s p = true → s = p +:+ drop (String.length p) s.
Proof.
  revert s. induction p as [| c p IH]; intros s Hs; [done |].
  destruct s as [| d s]; [done |]. simpl in Hs.
  destruct (decide (c = d)) as [-> |]; [| done].
  rewrite app_cons. simpl. f_equal. by apply IH.
Qed.

Lemma startsWith_Prefix s p : startsWith s p = true ↔ Prefix p s.
Proof.
  split.
  - intros Hs. eexists. by apply startsWith_true.
  - intros [rest ->]. apply startsWith_app.
Qed.

Lemma startsWith_nil_false p : p ≠ "" → startsWith "" p = false.
Proof. by destruct p. Qed.

(** *** [includes] *)

Lemma includes_Occurs s sub : includes s sub = true ↔ Occurs sub s.
Proof.
  induction s as [| c s IH].
  - simpl. rewrite orb_false_r, startsWith_Prefix. split.
    + intros [rest ->]. by exists "", rest.
    + intros (l & r & Heq). symmetry in Heq.
      apply app_eq_nil in Heq as [-> Heq].
      apply app_eq_nil in Heq as [-> ->]. by exists "".
  - simpl. rewrite orb_true_iff, startsWith_Prefix, IH. split.
    + intros [[rest ->] | (l & r & ->)].
      * by exists "", rest.
      * by exists (String c l), r.
    + intros ([| d l] & r & Heq).
      * left. by exists r.
      * right. rewrite app_cons in Heq. simplify_eq. by exists l, r.
Qed.

Lemma includes_false_Occurs s sub : includes s sub = false ↔ ¬ Occurs sub s.
Proof. rewrite <- includes_Occurs. by destruct (includes s sub). Qed.

(** *** [endsWith] and [slice(0, -1)] *)

Lemma endsWith_Suffix s suf : endsWith s suf = true ↔ Suffix suf s.
Proof.
  induction s as [| c s IH].
  - simpl. rewrite orb_false_r, bool_decide_eq_true. split.
    + intros <-. by exists "".
    + intros (front & Heq). symmetry in Heq.
      by apply app_eq_nil in Heq as [_ ->].
  - simpl. rewrite orb_true_iff, bool_decide_eq_true, IH. split.
    + intros [<- | (front & ->)]; [by exists "" | by exists (String c front)].
    + intros ([| d front] & Heq); [by left |].
      right. rewrite app_cons in Heq. simplify_eq. by exists front.
Qed.

Lemma slice_0_minus1_app s c : slice_0_minus1 (s +:+ String c "") = s.
Proof.
  induction s as [| d s IH]; [done |].
  rewrite app_cons. simpl.
  destruct (s +:+ String c "") eqn:Heq.
  - by apply app_eq_nil in Heq as [_ ?].
  - by rewrite IH.
Qed.

(** *** Leftmost occurrences *)

Lemma find_first_Some tok s l r :
  find_first tok s = Some (l, r) → FirstOccurrence tok s l r.
Proof.
  revert l r. induction s as [| c s IH]; intros l r Hfind.
  - simpl in Hfind. destruct (startsWith "" tok) eqn:Hstart; [| done].
    simplify_eq. split; [by apply startsWith_true | simpl; lia].
  - cbn [find_first] in Hfind.
    destruct (startsWith (String c s) tok) eqn:Hstart.
    + simplify_eq. split; [by apply startsWith_true | simpl; lia].
    + destruct (find_first tok s) as [[l0 r0] |] eqn:Hrec; [| done].
      simplify_eq. destruct (IH _ _ eq_refl) as [-> Hmin]. split; [done |].
      intros [| d l'] r' Heq.
      * rewrite app_nil_l in Heq. rewrite Heq, startsWith_app in Hstart. done.
      * rewrite app_cons in Heq. injection Heq as _ Heq. simpl.
        specialize (Hmin l' r' Heq). lia.
Qed.

Lemma FirstOccurrence_find_first tok s l r :
  FirstOccurrence tok s l r → find_first tok s = Some (l, r).
Proof.
  revert l. induction s as [| c s IH]; intros l [Heq Hmin].
  - symmetry in Heq. apply app_eq_nil in Heq as [-> Heq].
    apply app_eq_nil in Heq as [-> ->]. done.
  - cbn [find_first]. destruct (startsWith (String c s) tok) eqn:Hstart.
    + apply startsWith_true in Hstart.
      specialize (Hmin "" _ Hstart). simpl in Hmin.
      assert (l = "") as -> by (apply length_zero; lia).
      rewrite app_nil_l in Heq. by rewrite Heq, drop_app.
    + destruct l as [| d l].
      { rewrite app_nil_l in Heq. by rewrite Heq, startsWith_app in Hstart. }
      rewrite app_cons in Heq. simplify_eq.
      rewrite (IH l); [done |]. split; [done |].
      intros l' r' Heq'. specialize (Hmin (String d l') r').
      rewrite app_cons, <- Heq' in Hmin. specialize (Hmin eq_refl).
      simpl in Hmin. lia.
Qed.

Lemma find_first_FirstOccurrence tok s l r :
  find_first tok s = Some (l, r) ↔ FirstOccurrence tok s l r.
Proof. split; [apply find_first_Some | apply FirstOccurrence_find_first]. Qed.

Lemma find_first_includes tok s :
  is_Some (find_first tok s) ↔ includes s tok = true.
Proof.
  induction s as [| c s IH].
  - simpl. destruct (startsWith "" tok); simpl; [by split; eauto |].
    split; [by intros [? ?] | done].
  - cbn [find_first includes]. destruct (startsWith (String c s) tok); simpl.
    { by split; eauto. }
    rewrite <- IH. destruct (find_first tok s) as [[l r] |].
    + by split; eauto.
    + split; by intros [? ?].
Qed.

Lemma find_first_None tok s : find_first tok s = None ↔ ¬ Occurs tok s.
Proof.
  rewrite <- includes_false_Occurs, <- not_true_iff_false, <- find_first_includes.
  rewrite <- eq_None_not_Some. done.
Qed.

Lemma FirstOccurrence_Occurs tok s l r : FirstOccurrence tok s l r → Occurs tok s.
Proof. intros [-> _]. by exists l, r. Qed.

(** The piece before the first token, and the deletion of the first
    token, are functions of the string. *)
Lemma PieceBefore_find_first tok s piece :
  PieceBefore tok s piece
  ↔ piece = match find_first tok s with Some (l, _) => l | None => s end.
Proof.
  split.
  - intros [[r Hfirst] | [Hnone ->]].
    + by rewrite (FirstOccurrence_find_first _ _ _ _ Hfirst).
    + apply find_first_None in Hnone. by rewrite Hnone.
  - intros ->. destruct (find_first tok s) as [[l r] |] eqn:Hfind.
    + left. exists r. by apply find_first_Some.
    + right. split; [by apply find_first_None | done].
Qed.

Lemma FirstRemoved_find_first tok s s' :
  FirstRemoved tok s s'
  ↔ s' = match find_first tok s with Some (l, r) => l +:+ r | None => s end.
Proof.
  split.
  - intros [(l & r & Hfirst & ->) | [Hnone ->]].
    + by rewrite (FirstOccurrence_find_first _ _ _ _ Hfirst).
    + apply find_first_None in Hnone. by rewrite Hnone.
  - intros ->. destruct (find_first tok s) as [[l r] |] eqn:Hfind.
    + left. exists l, r. split; [by apply find_first_Some | done].
    + right. split; [by apply find_first_None | done].
Qed.

(** *** [replace] by the empty string *)

Lemma replace_find_first s pattern :
  replace s pattern "" =
  match find_first pattern s with Some (l, r) => l +:+ r | None => s end.
Proof.
  induction s as [| c s IH].
  - simpl. by destruct (startsWith "" pattern).
  - cbn [replace find_first]. destruct (startsWith (String c s) pattern); [done |].
    rewrite IH. by destruct (find_first pattern s) as [[l r] |].
Qed.

(** *** [split] *)

Lemma split_go_skip separator k cur s :
  split_go separator k cur s = split_go separator 0 cur (drop k s).
Proof.
  revert k. induction s as [| c s IH]; intros k.
  - by rewrite drop_nil.
  - destruct k as [| k]; [done |]. simpl. apply IH.
Qed.

Lemma split_go_find_first separator cur s :
  separator ≠ "" →
  split_go separator 0 cur s =
  match find_first separator s with
  | Some (l, r) => (cur +:+ l) :: split_go separator 0 "" r
  | None => [cur +:+ s]
  end.
Proof.
  intros Hsep. revert cur. induction s as [| c s IH]; intros cur.
  - simpl. rewrite startsWith_nil_false by done. by rewrite app_nil_r.
  - cbn [split_go find_first]. destruct (startsWith (String c s) separator).
    + rewrite app_nil_r, split_go_skip. do 2 f_equal.
      destruct separator as [| d sep]; [done |]. simpl. by rewrite Nat.sub_0_r.
    + rewrite IH. destruct (find_first separator s) as [[l r] |].
      * by rewrite app_assoc, app_cons.
      * by rewrite app_assoc, app_cons.
Qed.

Lemma split_find_first s separator :
  separator ≠ "" →
  split s separator =
  match find_first separator s with
  | Some (l, r) => l :: split r separator
  | None => [s]
  end.
Proof. intros Hsep. unfold split. by rewrite split_go_find_first. Qed.

(** *** A one-unit token *)

Lemma find_first_unit ch c r :
  ¬ Occurs (String ch "") c →
  find_first (String ch "") (c +:+ String ch "" +:+ r) = Some (c, r).
Proof.
  intros Hocc. apply FirstOccurrence_find_first. split; [done |].
  revert Hocc. induction c as [| a c IH]; intros Hocc l' r' Heq; [simpl; lia |].
  destruct l' as [| a' l'].
  - rewrite app_cons, app_nil_l in Heq.
    rewrite (app_cons _ "" r'), app_nil_l in Heq. simplify_eq.
    destruct Hocc. by exists "", c.
  - rewrite !app_cons in Heq. simplify_eq. simpl.
    assert (String.length c ≤ String.length l'); [| lia].
    eapply IH; [| done]. intros (l & r0 & ->). apply Hocc.
    by exists (String a' l), r0.
Qed.

End JsStringFacts.

(** ** The subscription filter: accept-all and the empty set *)

Section FilterInvariant.

Lemma new_accept_all_iff_empty : accept_all_iff_empty new_VRChatOSCQuery.
Proof. by split. Qed.

Lemma subscribe_accept_all_iff_empty f path :
  accept_all_iff_empty (subscribe f path).
Proof.
  unfold accept_all_iff_empty; simpl. split; [done |].
  intros Hempty. set_solver.
Qed.

Lemma unsubscribe_accept_all_iff_empty f path :
  accept_all_iff_empty f → accept_all_iff_empty (unsubscribe f path).
Proof.
  unfold accept_all_iff_empty; simpl. intros [Hall _].
  destruct (size (subscribedPaths f ∖ {[path]}) =? 0) eqn:Hsize.
  - apply Nat.eqb_eq, size_empty_iff, leibniz_equiv in Hsize. by rewrite Hsize.
  - apply Nat.eqb_neq in Hsize. split.
    + intros Htrue. rewrite (Hall Htrue) in Hsize.
      exfalso. apply Hsize. apply size_empty_iff.
      intros x. rewrite elem_of_difference, elem_of_empty. tauto.
    + intros Hempty. rewrite Hempty, size_empty in Hsize. done.
Qed.

Lemma subscribeToAllPaths_accept_all_iff_empty f :
  accept_all_iff_empty (subscribeToAllPaths f).
Proof. by split. Qed.

Lemma apply_op_accept_all_iff_empty f op :
  accept_all_iff_empty f → accept_all_iff_empty (apply_op f op).
Proof.
  destruct op; simpl; intros Hinv.
  - apply subscribe_accept_all_iff_empty.
  - by apply unsubscribe_accept_all_iff_empty.
  - apply subscribeToAllPaths_accept_all_iff_empty.
Qed.

Lemma run_ops_accept_all_iff_empty ops :
  ∀ f, accept_all_iff_empty f → accept_all_iff_empty (run_ops ops f).
Proof.
  induction ops as [| op ops IH]; intros f Hinv; simpl; [done |].
  apply IH. by apply apply_op_accept_all_iff_empty.
Qed.

End FilterInvariant.

(** C9.  A freshly constructed filter accepts everything and has no
    pattern; after any finite sequence of [subscribe], [unsubscribe] and
    [subscribeToAllPaths], an empty pattern set implies accept-all mode;
    and after a further [unsubscribe], accept-all mode is on exactly when
    the pattern set has become empty. *)
Theorem filter_empty_implies_accept_all :
  (subscribeToAll new_VRChatOSCQuery = true
   ∧ subscribedPaths new_VRChatOSCQuery = ∅)
  ∧ ∀ ops : list FilterOp,
      let f := run_ops ops new_VRChatOSCQuery in
      (subscribedPaths f = ∅ → subscribeToAll f = true)
      ∧ ∀ path : string,
          subscribeToAll (unsubscribe f path) = true
          ↔ subscribedPaths (unsubscribe f path) = ∅.
Proof.
  split; [done |]. intros ops f.
  assert (Hinv : accept_all_iff_empty f).
  { apply run_ops_accept_all_iff_empty, new_accept_all_iff_empty. }
  split.
  - apply Hinv.
  - intros path. by apply unsubscribe_accept_all_iff_empty.
Qed.

(** ** The subscription filter: the pattern grammar *)

Section PatternGrammar.
Import JsString JsStringFacts.

Lemma negativeToken_nonempty : negativeToken ≠ "".
Proof. done. Qed.

(** The first two pieces of [pattern.split("(!?")] when the token occurs. *)
Lemma split_pieces pattern l r :
  find_first negativeToken pattern = Some (l, r) →
  split pattern negativeToken !! 0 = Some l
  ∧ split pattern negativeToken !! 1 =
      Some (match find_first negativeToken r with
            | Some (piece, _) => piece
            | None => r
            end).
Proof.
  intros Hfind.
  rewrite (split_find_first pattern) by apply negativeToken_nonempty.
  rewrite Hfind. split; [done |]. simpl.
  rewrite (split_find_first r) by apply negativeToken_nonempty.
  by destruct (find_first negativeToken r) as [[piece r'] |].
Qed.

Lemma ExcludeString_replace rest excl :
  ExcludeString rest excl
  ↔ excl = replace (match find_first negativeToken rest with
                    | Some (piece, _) => piece
                    | None => rest
                    end) ")" "".
Proof.
  unfold ExcludeString. rewrite replace_find_first. split.
  - intros (piece & Hpiece & Hexcl).
    apply PieceBefore_find_first in Hpiece as ->.
    by apply FirstRemoved_find_first in Hexcl.
  - intros ->. eexists. split.
    + by apply PieceBefore_find_first.
    + by apply FirstRemoved_find_first.
Qed.

Lemma negativeTest_MatchesNegative address pattern :
  negativeTest address pattern = true ↔ MatchesNegative pattern address.
Proof.
  unfold negativeTest, MatchesNegative. split.
  - intros [Hincl Htest]%andb_true_iff.
    apply find_first_includes in Hincl as [[l r] Hfind].
    destruct (split_pieces _ _ _ Hfind) as [H0 H1].
    change "(!?" with negativeToken in Htest.
    rewrite H0, H1 in Htest. simpl in Htest.
    apply andb_true_iff in Htest as [Hstart Hexcl].
    apply negb_true_iff in Hexcl.
    exists l, r. eexists. split_and!.
    + by apply find_first_Some.
    + by apply ExcludeString_replace.
    + by apply startsWith_Prefix.
    + by apply includes_false_Occurs.
  - intros (l & r & excl & Hfirst & Hexcl & Hpre & Hocc).
    apply FirstOccurrence_find_first in Hfirst as Hfind.
    destruct (split_pieces _ _ _ Hfind) as [H0 H1].
    apply ExcludeString_replace in Hexcl as ->.
    change "(!?" with negativeToken.
    rewrite H0, H1. simpl. apply andb_true_iff. split.
    + apply find_first_includes. by rewrite Hfind.
    + apply andb_true_iff. split.
      * by apply startsWith_Prefix.
      * apply negb_true_iff. by apply includes_false_Occurs.
Qed.

Lemma wildcardTest_MatchesPrefixWildcard address pattern :
  endsWith pattern "*" && startsWith address (slice_0_minus1 pattern) = true
  ↔ MatchesPrefixWildcard pattern address.
Proof.
  unfold MatchesPrefixWildcard.
  rewrite andb_true_iff, endsWith_Suffix. split.
  - intros [[front ->] Hstart]. rewrite slice_0_minus1_app in Hstart.
    exists front. split; [done |]. by apply startsWith_Prefix.
  - intros (prefix & -> & Hpre). split; [by exists prefix |].
    rewrite slice_0_minus1_app. by apply startsWith_Prefix.
Qed.

Lemma pathMatches_unfold address pattern :
  pathMatches address pattern =
  bool_decide (pattern = address)
  || negativeTest address pattern
  || (endsWith pattern "*" && startsWith address (slice_0_minus1 pattern)).
Proof.
  unfold pathMatches. fold (negativeTest address pattern).
  destruct (bool_decide (pattern = address)); [done |].
  destruct (negativeTest address pattern); [done |].
  by destruct (endsWith pattern "*").
Qed.

Lemma pathMatches_PatternMatches address pattern :
  pathMatches address pattern = true ↔ PatternMatches pattern address.
Proof.
  rewrite pathMatches_unfold, !orb_true_iff, bool_decide_eq_true.
  rewrite negativeTest_MatchesNegative, wildcardTest_MatchesPrefixWildcard.
  unfold PatternMatches, MatchesExact. tauto.
Qed.

Lemma shouldProcessMessage_exists f address :
  shouldProcessMessage f address = true
  ↔ subscribeToAll f = true
    ∨ ∃ pattern, pattern ∈ subscribedPaths f ∧ pathMatches address pattern = true.
Proof.
  unfold shouldProcessMessage. destruct (subscribeToAll f).
  - split; [by left | done].
  - rewrite existsb_exists. split.
    + intros (pattern & Hin & Hmatch). right. exists pattern. split; [| done].
      by apply elem_of_elements, list_elem_of_In.
    + intros [? | (pattern & Hin & Hmatch)]; [done |].
      exists pattern. split; [| done].
      by apply list_elem_of_In, elem_of_elements.
Qed.

(** *** Patterns of the documented form *)

Lemma startsWith_negativeToken_paren s :
  startsWith (s +:+ ")") negativeToken = startsWith s negativeToken.
Proof.
  destruct s as [| a [| b [| c s]]]; rewrite ?app_cons; simpl;
    repeat case_decide; done.
Qed.

Lemma includes_negativeToken_paren s :
  includes (s +:+ ")") negativeToken = includes s negativeToken.
Proof.
  induction s as [| a s IH]; [done |].
  rewrite app_cons. cbn [includes]. rewrite <- app_cons.
  by rewrite startsWith_negativeToken_paren, IH.
Qed.

(** For a text without [")"] and without token, closed by [")"], both
    readings of the exclude string give the text. *)
Lemma ExcludeString_closed_text text excl :
  ¬ Occurs ")" text → ¬ Occurs negativeToken text →
  ExcludeString (text +:+ ")") excl ↔ SpecExcludeString (text +:+ ")") excl.
Proof.
  intros Hparen Htoken.
  assert (Hnone : find_first negativeToken (text +:+ ")") = None).
  { apply find_first_None, includes_false_Occurs.
    rewrite includes_negativeToken_paren. by apply includes_false_Occurs. }
  assert (Hfirst : find_first ")" (text +:+ ")") = Some (text, "")).
  { rewrite <- (app_nil_r (text +:+ ")")), app_assoc. by apply find_first_unit. }
  rewrite ExcludeString_replace, Hnone, replace_find_first, Hfirst, app_nil_r.
  unfold SpecExcludeString. by rewrite PieceBefore_find_first, Hfirst.
Qed.

(** On patterns of the documented form, [pathMatches] decides the grammar
    in the words of the specification. *)
Lemma PatternMatches_well_formed pattern address :
  WellFormedPattern pattern →
  PatternMatches pattern address ↔ SpecPatternMatches pattern address.
Proof.
  intros Hwf. unfold PatternMatches, SpecPatternMatches.
  assert (Hneg : MatchesNegative pattern address ↔ SpecMatchesNegative pattern address).
  { split.
    - intros (base & rest & excl & Hfirst & Hexcl & Hrest).
      destruct (Hwf _ _ Hfirst) as (text & -> & Hparen & Htoken).
      exists base, (text +:+ ")"), excl. split; [done |]. split; [| done].
      by apply ExcludeString_closed_text.
    - intros (base & rest & excl & Hfirst & Hexcl & Hrest).
      destruct (Hwf _ _ Hfirst) as (text & -> & Hparen & Htoken).
      exists base, (text +:+ ")"), excl. split; [done |]. split; [| done].
      by apply ExcludeString_closed_text. }
  tauto.
Qed.

Lemma pathMatches_well_formed address pattern :
  WellFormedPattern pattern →
  pathMatches address pattern = true ↔ SpecPatternMatches pattern address.
Proof.
  intros Hwf. by rewrite pathMatches_PatternMatches, PatternMatches_well_formed.
Qed.

End PatternGrammar.

(** C4, as amended.  The filter accepts an address iff accept-all mode is
    on or some subscribed pattern matches it, where a pattern matches when
    it equals the address, or ends with ["*"] and the address starts with
    what precedes that ["*"], or contains the token ["(!?"] and the address
    starts with what precedes the first token and does not contain the
    exclude string: the piece between the first token and the next token
    (or the end of the pattern) with its first [")"] deleted. *)
Theorem shouldProcessMessage_iff_pattern_matches :
  ∀ (f : VRChatOSCQuery) (address : string),
    shouldProcessMessage f address = true
    ↔ subscribeToAll f = true
      ∨ ∃ pattern, pattern ∈ subscribedPaths f ∧ PatternMatches pattern address.
Proof.
  intros f address. rewrite shouldProcessMessage_exists.
  by setoid_rewrite pathMatches_PatternMatches.
Qed.

(** C4, the counterexample.  With the single pattern ["/a/(!?x)y"] the
    filter accepts ["/a/x"], which the grammar of the specification
    rejects: the text after the token up to the next [")"] is ["x"], and
    the address contains it.  ([pathMatches] deletes the [")"] and
    excludes ["xy"].) *)
Lemma shouldProcessMessage_not_spec_grammar :
  let f := subscribe new_VRChatOSCQuery "/a/(!?x)y" in
  shouldProcessMessage f "/a/x" = true
  ∧ ¬ (subscribeToAll f = true
       ∨ ∃ pattern, pattern ∈ subscribedPaths f ∧ SpecPatternMatches pattern "/a/x").
Proof.
  split; [by vm_compute |].
  intros [Hall | (pattern & Hin & Hmatch)]; [done |].
  simpl in Hin. apply elem_of_union in Hin as [Hin | Hin].
  2: { by apply elem_of_empty in Hin. }
  apply elem_of_singleton in Hin as ->.
  destruct Hmatch as [Hexact | [(prefix & Heq & _) | Hneg]].
  - done.
  - assert (Hends : JsString.endsWith "/a/(!?x)y" "*" = true).
    { apply JsStringFacts.endsWith_Suffix. by exists prefix. }
    done.
  - destruct Hneg as (base & rest & excl & Hfirst & Hexcl & _ & Hocc).
    apply JsStringFacts.FirstOccurrence_find_first in Hfirst.
    vm_compute in Hfirst. simplify_eq.
    apply JsStringFacts.PieceBefore_find_first in Hexcl.
    vm_compute in Hexcl. subst excl.
    apply Hocc. by exists "/a/", "".
Qed.

(** ** The serializer *)

Section Serialize.

(** One unfolding of [serialize]: the properties that come before the
    [if (this._args)] block, then that block. *)
Lemma serialize_unfold trail node :
  ∃ own : list (string * JsValue),
    serialize trail node =
      JsObject (own ++ match _args node with
                       | Some args => serialize_args (_access node) args
                       | None => []
                       end)
    ∧ (∀ k, k ∈ map fst own → k ∈ ownKeys)
    ∧ props_get "ACCESS" own =
        match _access node with
        | Some a => jsNumberOfZ a
        | None => if isContainer node then jsNumberOfZ 0 else JsUndefined
        end
    ∧ ("ACCESS" ∈ map fst own ↔
       is_Some (_access node) ∨ isContainer node = true).
Proof.
  destruct node as [name desc acc tgs crit args children].
  eexists. split.
  { cbn [serialize _args _access _description _tags _critical _children _name].
    rewrite !(assoc_L (++)). reflexivity. }
  cbn [_access _args]. unfold ownKeys.
  destruct (truthyString desc), acc, (isContainer _), tgs, crit,
    (0 <? size children); simpl;
    (split; [set_solver | split; [done | ]]);
    rewrite ?is_Some_alt; set_solver.
Qed.

Lemma allNull_false {A} (arr : list (option A)) :
  allNull arr = false ↔ ∃ elem, elem ∈ arr ∧ elem ≠ None.
Proof.
  induction arr as [| [a |] arr IH]; simpl.
  - split; [done | intros (? & []%elem_of_nil & _)].
  - split; [| done]. intros _. exists (Some a). split; [left | done].
  - rewrite IH. split.
    + intros (elem & Hin & Hne). exists elem. split; [by right | done].
    + intros (elem & Hin & Hne). apply elem_of_cons in Hin as [-> | Hin]; [done |].
      by exists elem.
Qed.

Lemma allNull_map_false {A B} (f : A → option B) (l : list A) :
  allNull (map f l) = false ↔ ∃ a, a ∈ l ∧ f a ≠ None.
Proof.
  rewrite allNull_false. split.
  - intros (elem & Hin & Hne). apply list_elem_of_fmap in Hin as (a & -> & Hin).
    by exists a.
  - intros (a & Hin & Hne). exists (f a). split; [| done].
    apply list_elem_of_fmap. by exists a.
Qed.

Lemma coalesceNull_NonNull v : coalesceNull v ≠ None ↔ NonNull v.
Proof. unfold NonNull. destruct v; simpl; naive_solver. Qed.

Lemma coalesceNull_Some v w : coalesceNull v = Some w → w = v.
Proof. destruct v; simpl; congruence. Qed.

(** Which keys the [if (this._args)] block sets. *)
Lemma serialize_args_keys access args k :
  k ∈ map fst (serialize_args access args)
  ↔ k = "TYPE"
    ∨ (k = "RANGE" ∧ allNull (map arg_range args) = false)
    ∨ (k = "CLIPMODE" ∧ allNull (map arg_clipmode args) = false)
    ∨ (k = "VALUE"
       ∧ allNull (map (λ arg, coalesceNull (arg_value arg)) args) = false
       ∧ (access = Some 1%Z ∨ access = Some 3%Z)).
Proof.
  unfold serialize_args.
  destruct (allNull (map arg_range args)),
    (allNull (map arg_clipmode args)),
    (allNull (map (λ arg, coalesceNull (arg_value arg)) args));
    destruct access as [a |]; simpl;
    try (destruct (a =? 1)%Z eqn:H1; destruct (a =? 3)%Z eqn:H3; simpl);
    rewrite ?Z.eqb_eq, ?Z.eqb_neq in *;
    rewrite ?elem_of_cons, ?elem_of_nil; naive_solver.
Qed.

Lemma js_has_serialize trail node k :
  k ∉ ownKeys →
  js_has (serialize trail node) k = true
  ↔ ∃ args, _args node = Some args
            ∧ k ∈ map fst (serialize_args (_access node) args).
Proof.
  intros Hk. destruct (serialize_unfold trail node) as (own & -> & Hown & _).
  simpl. rewrite bool_decide_eq_true, map_app, elem_of_app.
  destruct (_args node) as [args |]; simpl.
  - split; [intros [? | ?]; [naive_solver | eauto] | ].
    intros (args' & ? & ?). simplify_eq. by right.
  - split; [intros [? | []%elem_of_nil]; naive_solver | ].
    by intros (? & ? & _).
Qed.

(** The three optional keys of the [if (this._args)] block. *)
Lemma serialize_range_clipmode_value_keys_core trail node args :
  _args node = Some args →
  (js_has (serialize trail node) "RANGE" = true
   ↔ ∃ arg, arg ∈ args ∧ arg_range arg ≠ None)
  ∧ (js_has (serialize trail node) "CLIPMODE" = true
     ↔ ∃ arg, arg ∈ args ∧ arg_clipmode arg ≠ None)
  ∧ (js_has (serialize trail node) "VALUE" = true
     ↔ (∃ arg, arg ∈ args ∧ NonNull (arg_value arg))
       ∧ (_access node = Some 1%Z ∨ _access node = Some 3%Z)).
Proof.
  intros Hargs.
  rewrite !js_has_serialize by (unfold ownKeys; set_solver).
  rewrite Hargs. split_and!.
  - rewrite <- allNull_map_false. split.
    + intros (? & [= <-] & Hk). apply serialize_args_keys in Hk.
      naive_solver.
    + intros Hnull. eexists. split; [done |].
      apply serialize_args_keys. naive_solver.
  - rewrite <- allNull_map_false. split.
    + intros (? & [= <-] & Hk). apply serialize_args_keys in Hk.
      naive_solver.
    + intros Hnull. eexists. split; [done |].
      apply serialize_args_keys. naive_solver.
  - setoid_rewrite <- coalesceNull_NonNull.
    rewrite <- (allNull_map_false (λ arg, coalesceNull (arg_value arg))). split.
    + intros (? & [= <-] & Hk). apply serialize_args_keys in Hk.
      naive_solver.
    + intros [Hnull Hacc]. eexists. split; [done |].
      apply serialize_args_keys. naive_solver.
Qed.

End Serialize.

(** C6.  For a node with arguments, the serialized node has the key
    [RANGE] iff some argument has a range, the key [CLIPMODE] iff some
    argument has a clip mode, and the key [VALUE] iff some argument holds a
    value (one that is neither [undefined] nor [null], so that its entry in
    the list is not null) and the access is 1 or 3; so each of the three
    keys is absent whenever all its per-argument entries are null. *)
Theorem serialize_range_clipmode_value_keys :
  ∀ (trail : list (OSCNode * string)) (node : OSCNode) (args : list Argument),
    _args node = Some args →
    let result := serialize trail node in
    (js_has result "RANGE" = true ↔ ∃ arg, arg ∈ args ∧ arg_range arg ≠ None)
    ∧ (js_has result "CLIPMODE" = true
       ↔ ∃ arg, arg ∈ args ∧ arg_clipmode arg ≠ None)
    ∧ (js_has result "VALUE" = true
       ↔ (∃ arg, arg ∈ args ∧ NonNull (arg_value arg))
         ∧ (_access node = Some OSCQAccess.READONLY
            ∨ _access node = Some OSCQAccess.READWRITE)).
Proof.
  intros trail node args Hargs result.
  apply serialize_range_clipmode_value_keys_core, Hargs.
Qed.

(** ** HOST_INFO *)

Section HostInfo.

Lemma orString_default a d : d ≠ "" → ∃ s, orString a (Some d) = Some s.
Proof.
  intros Hd. unfold orString. destruct a as [s |]; simpl; [| by eauto].
  destruct (bool_decide (s = "")); simpl; eauto.
Qed.

Lemma orString_transport opts :
  orString (oscTransport opts) (Some "UDP") = Some (transportOf opts).
Proof.
  unfold orString, transportOf. destruct (oscTransport opts) as [t |]; [| done].
  simpl. destruct (decide (t = "")) as [-> | Hne]; [done |].
  by rewrite bool_decide_eq_false_2.
Qed.

(** Once [start] has run, [oscPort || httpPort] is a number. *)
Lemma start_port srv freePort :
  ∃ port, orNumber (oscPort (_opts (start srv freePort).1))
                   (httpPort (_opts (start srv freePort).1)) = Some port.
Proof.
  unfold orNumber, start. simpl.
  destruct (truthyNumber (httpPort (_opts srv))) eqn:Hhttp; simpl.
  - destruct (httpPort (_opts srv)) as [p |]; [| done].
    destruct (truthyNumber (oscPort (_opts srv))) eqn:Hosc; [| by eauto].
    destruct (oscPort (_opts srv)); [by eauto | done].
  - destruct (truthyNumber (oscPort (_opts srv))) eqn:Hosc; [| by eauto].
    destruct (oscPort (_opts srv)); [by eauto | done].
Qed.

Lemma start_keeps_options srv freePort :
  oscQueryHostName (_opts (start srv freePort).1) = oscQueryHostName (_opts srv)
  ∧ oscTransport (_opts (start srv freePort).1) = oscTransport (_opts srv).
Proof.
  unfold start. simpl. by destruct (truthyNumber (httpPort (_opts srv))).
Qed.

Lemma hostInfo_stringify opts port :
  orNumber (oscPort opts) (httpPort opts) = Some port →
  ∃ ip,
    JSON_stringify (hostInfo opts) =
      Some (JObject (nameMember opts
                     ++ [("EXTENSIONS", EXTENSIONS_json);
                         ("OSC_IP", JString ip);
                         ("OSC_PORT", JNumber (inject_Z port));
                         ("OSC_TRANSPORT", JString (transportOf opts))])).
Proof.
  intros Hport.
  destruct (orString_default (bindAddress opts) "0.0.0.0") as [bind Hbind]; [done |].
  unfold hostInfo, nameMember. rewrite Hport, Hbind, orString_transport.
  assert (∃ ip, orString (oscIp opts) (Some bind) = Some ip) as [ip ->].
  { unfold orString. destruct (truthyString (oscIp opts)) eqn:Hip; [| by eauto].
    destruct (oscIp opts); [by eauto | done]. }
  exists ip. by destruct (oscQueryHostName opts).
Qed.

Lemma handleGet_HOST_INFO srv pathname :
  _handleGet srv pathname "?HOST_INFO" = respondJson (hostInfo (_opts srv)).
Proof. reflexivity. Qed.

End HostInfo.

(** C8, as amended.  On a started server, for every request path (whether
    it resolves to a node or not), a GET with selector [HOST_INFO] returns
    status 200 and a JSON object made of [NAME] when a host name is
    configured (the member is left out otherwise), [EXTENSIONS] with the
    seven flags true, [OSC_IP], [OSC_PORT] and [OSC_TRANSPORT]; the
    transport is ["UDP"] when none is configured.  The path is not looked
    up, so the response is never a 404. *)
Theorem host_info_response :
  ∀ (srv : OSCQueryServer) (freePort : Z) (pathname : string),
    let started := (start srv freePort).1 in
    ∃ (ip : string) (port : Z),
      _handleGet started pathname "?HOST_INFO" =
        jsonResponse
          (JObject (nameMember (_opts srv)
                    ++ [("EXTENSIONS", EXTENSIONS_json);
                        ("OSC_IP", JString ip);
                        ("OSC_PORT", JNumber (inject_Z port));
                        ("OSC_TRANSPORT", JString (transportOf (_opts srv)))]))
      ∧ (oscTransport (_opts srv) = None → transportOf (_opts srv) = "UDP")
      ∧ (∀ name, oscQueryHostName (_opts srv) = Some name →
                 nameMember (_opts srv) = [("NAME", JString name)]).
Proof.
  intros srv freePort pathname started.
  destruct (start_port srv freePort) as [port Hport].
  destruct (hostInfo_stringify _ _ Hport) as [ip Hjson].
  destruct (start_keeps_options srv freePort) as [Hname Htransport].
  exists ip, port. split_and!.
  - rewrite handleGet_HOST_INFO. unfold respondJson, jsonResponse.
    fold started in Hjson. rewrite Hjson.
    unfold nameMember, transportOf. fold started in Hname, Htransport.
    by rewrite Hname, Htransport.
  - unfold transportOf. by intros ->.
  - unfold nameMember. by intros name ->.
Qed.

(** C8, the counterexample.  A server constructed without options (the
    default of the constructor) and started answers [HOST_INFO] with
    status 200 and an object that has no [NAME] member:
    [this._opts.oscQueryHostName] is [undefined] and [JSON.stringify]
    leaves the property out. *)
Lemma host_info_without_name :
  let started := (start (new_OSCQueryServer noOptions) 8000).1 in
  let response := _handleGet started "/" "?HOST_INFO" in
  statusCode response = 200%Z
  ∧ ∃ document, body response = Some document
                ∧ json_get document "NAME" = None
                ∧ json_get document "OSC_PORT" = Some (JNumber (inject_Z 8000)).
Proof. split; [done |]. eexists. by split. Qed.

(** ** [setValue] and [unsetValue] *)

Section ValueOps.

Lemma OSCNode_setValue_out_of_range node arg_index value :
  (_args node = None
   ∨ ∃ args, _args node = Some args ∧ (Z.of_nat (length args) <= arg_index)%Z) →
  OSCNode_setValue node arg_index value = inl IndexOutOfRange.
Proof.
  unfold OSCNode_setValue. intros [-> | (args & -> & Hlen)]; [done |].
  by apply Z.leb_le in Hlen as ->.
Qed.

Lemma OSCNode_unsetValue_out_of_range node arg_index :
  (_args node = None
   ∨ ∃ args, _args node = Some args ∧ (Z.of_nat (length args) <= arg_index)%Z) →
  OSCNode_unsetValue node arg_index = inl IndexOutOfRange.
Proof.
  unfold OSCNode_unsetValue. intros [-> | (args & -> & Hlen)]; [done |].
  by apply Z.leb_le in Hlen as ->.
Qed.

End ValueOps.


(** ** The GET handler with an attribute selector *)

Section HandleGet.

Lemma props_get_notin k props : k ∉ map fst props → props_get k props = JsUndefined.
Proof.
  induction props as [| [k' v] props IH]; simpl; [done |].
  intros Hnotin. apply not_elem_of_cons in Hnotin as [Hne Hnotin].
  rewrite decide_False by done. by apply IH.
Qed.

Lemma props_get_app k l1 l2 :
  props_get k (l1 ++ l2) =
  if bool_decide (k ∈ map fst l1) then props_get k l1 else props_get k l2.
Proof.
  induction l1 as [| [k' v] l1 IH]; simpl; [done |].
  destruct (decide (k = k')) as [-> | Hne].
  - rewrite bool_decide_eq_true_2; [done | left].
  - rewrite IH. destruct (bool_decide (k ∈ map fst l1)) eqn:Hin.
    + apply bool_decide_eq_true in Hin.
      rewrite bool_decide_eq_true_2; [done | by right].
    + apply bool_decide_eq_false in Hin.
      rewrite bool_decide_eq_false_2; [done |].
      by apply not_elem_of_cons.
Qed.

Lemma js_has_false_js_get trail node k :
  js_has (serialize trail node) k = false →
  js_get (serialize trail node) k = JsUndefined.
Proof.
  destruct (serialize_unfold trail node) as (own & -> & _). simpl.
  intros Hhas. apply bool_decide_eq_false in Hhas. by apply props_get_notin.
Qed.

(** [serialized.ACCESS] *)
Lemma serialize_ACCESS trail node :
  js_get (serialize trail node) "ACCESS" = jsOfNumber (serializedAccess node).
Proof.
  destruct (serialize_unfold trail node) as (own & -> & _ & Hget & Hin).
  simpl. rewrite props_get_app, Hget. unfold serializedAccess.
  destruct (bool_decide ("ACCESS" ∈ map fst own)) eqn:Hown.
  - destruct (_access node); [done |]. by destruct (isContainer node).
  - apply bool_decide_eq_false in Hown. rewrite Hin in Hown.
    destruct (_access node) as [a |]; [by destruct Hown; left; eauto |].
    destruct (isContainer node); [by destruct Hown; right |].
    apply props_get_notin. destruct (_args node) as [args |]; [| by apply not_elem_of_nil].
    rewrite serialize_args_keys. naive_solver.
Qed.

(** [serialized.VALUE] when the key is set. *)
Lemma serialize_VALUE trail node :
  js_has (serialize trail node) "VALUE" = true →
  ∃ args, _args node = Some args
          ∧ js_get (serialize trail node) "VALUE" = JsArray (map valueEntry args).
Proof.
  intros Hhas.
  apply js_has_serialize in Hhas as (args & Hargs & Hkey);
    [| unfold ownKeys; set_solver].
  exists args. split; [done |].
  destruct (serialize_unfold trail node) as (own & -> & Hown & _).
  simpl. rewrite props_get_app, Hargs.
  rewrite bool_decide_eq_false_2.
  2: { intros Hin. apply Hown in Hin. unfold ownKeys in Hin. set_solver. }
  apply serialize_args_keys in Hkey as [? | [[? _] | [[? _] | (_ & Hnull & Hacc)]]];
    try done.
  unfold serialize_args. rewrite Hnull. simpl.
  rewrite !props_get_app.
  assert (Hvalue : ∀ a, ((a =? 1)%Z || (a =? 3)%Z) = true →
    props_get "VALUE"
      [("VALUE", JsArray (map (nullable id)
                   (map (λ arg, coalesceNull (arg_value arg)) args)))]
    = JsArray (map valueEntry args)).
  { intros a _. simpl. unfold valueEntry. f_equal. by rewrite map_map. }
  destruct (allNull (map arg_range args)), (allNull (map arg_clipmode args));
    simpl; destruct Hacc as [-> | ->]; by apply (Hvalue 1%Z) || by apply (Hvalue 3%Z).
Qed.

Lemma js_has_VALUE_ValueReadable trail node :
  js_has (serialize trail node) "VALUE" = true ↔ ValueReadable node.
Proof.
  unfold ValueReadable. split.
  - intros Hhas. destruct (_args node) as [args |] eqn:Hargs.
    + apply (serialize_range_clipmode_value_keys_core trail node args Hargs) in Hhas.
      naive_solver.
    + apply js_has_serialize in Hhas as (args & ? & _); [congruence |].
      unfold ownKeys; set_solver.
  - intros [(args & arg & Hargs & Hin & Hval) Hacc].
    apply (serialize_range_clipmode_value_keys_core trail node args Hargs).
    naive_solver.
Qed.

Lemma stringify_value_list args :
  JSON_stringify (JsArray (map valueEntry args)) =
  Some (JArray (map valueEntryJson args)).
Proof. simpl. by rewrite map_map. Qed.

Lemma valueEntryJson_unset arg :
  ¬ NonNull (arg_value arg) → valueEntryJson arg = JNull.
Proof.
  unfold valueEntryJson, valueEntry, NonNull.
  destruct (arg_value arg); simpl; naive_solver.
Qed.

Lemma valueEntryJson_set arg :
  NonNull (arg_value arg) →
  JSON_stringify (arg_value arg) = Some (valueEntryJson arg).
Proof.
  unfold valueEntryJson, valueEntry, NonNull.
  destruct (arg_value arg); simpl; naive_solver.
Qed.

Lemma Qeq_bool_inject_Z a b : Qeq_bool (inject_Z a) (inject_Z b) = (a =? b)%Z.
Proof. unfold Qeq_bool, inject_Z. simpl. by rewrite !Z.mul_1_r. Qed.

Lemma looseEqNumber_jsOfNumber o z :
  looseEqNumber (jsOfNumber o) z = bool_decide (o = Some z).
Proof.
  destruct o as [a |]; simpl; [| done].
  rewrite Qeq_bool_inject_Z. destruct (a =? z)%Z eqn:Heq.
  - apply Z.eqb_eq in Heq as ->. by rewrite bool_decide_eq_true_2.
  - apply Z.eqb_neq in Heq. rewrite bool_decide_eq_false_2; congruence.
Qed.

Lemma isUndefined_jsOfNumber o : isUndefined (jsOfNumber o) = bool_decide (o = None).
Proof. by destruct o. Qed.

Lemma valid_attribute_nonempty q : q ∈ VALID_ATTRIBUTES → q ≠ "".
Proof. unfold VALID_ATTRIBUTES. set_solver. Qed.

(** [_handleGet] on a valid selector other than [HOST_INFO], for a path
    that resolves. *)
Lemma handleGet_selector srv pathname q node :
  q ∈ VALID_ATTRIBUTES → q ≠ "HOST_INFO" →
  _getNodeForPath srv pathname = Some node →
  _handleGet srv pathname ("?" +:+ q) =
    if unreadable (focus node) && bool_decide (q = "VALUE")
    then respondStatus 204
    else respondJson
           (JsObject [(q, js_get (serialize (trail node) (focus node)) q)]).
Proof.
  intros Hvalid Hhost Hnode. unfold _handleGet.
  assert (Hquery :
    (if 0 <? String.length ("?" +:+ q)
     then Some (JsString.substring_1 ("?" +:+ q)) else None) = Some q)
    by reflexivity.
  rewrite Hquery. clear Hquery.
  pose proof (valid_attribute_nonempty _ Hvalid) as Hne.
  assert (Htruthy : truthyString (Some q) = true).
  { simpl. by rewrite bool_decide_eq_false_2. }
  rewrite Htruthy. unfold validAttribute.
  rewrite (bool_decide_eq_true_2 _ Hvalid). simpl.
  rewrite bool_decide_eq_false_2 by congruence.
  unfold _getNodeForPath in Hnode. rewrite Hnode.
  rewrite serialize_ACCESS, isUndefined_jsOfNumber, !looseEqNumber_jsOfNumber.
  unfold unreadable.
  destruct (serializedAccess (focus node)) as [a |]; simpl; [done |].
  done.
Qed.

Lemma respondJson_not_204 json : respondJson json ≠ respondStatus 204.
Proof. done. Qed.

Lemma stringify_single_undefined q :
  JSON_stringify (JsObject [(q, JsUndefined)]) = Some (JObject []).
Proof. reflexivity. Qed.

End HandleGet.

(** C1, as amended.  For a path that resolves to a node [x], a GET with
    selector [VALUE] returns status 204 with an empty body iff the access
    of [x] as serialized (a container without access counting as 0) is 0
    or 2.  Otherwise it returns status 200; the body holds a [VALUE] list,
    with one entry per argument (the stored value, null at every slot
    without one), when [x] has arguments, one of them holds a value and
    the access is 1 or 3, and is the empty object otherwise. *)
Theorem get_VALUE_response :
  ∀ (srv : OSCQueryServer) (pathname : string) (node : Cursor),
    _getNodeForPath srv pathname = Some node →
    let x := focus node in
    let response := _handleGet srv pathname "?VALUE" in
    js_get (serialize (trail node) x) "ACCESS" = jsOfNumber (serializedAccess x)
    ∧ (response = respondStatus 204
       ↔ serializedAccess x = Some OSCQAccess.NO_VALUE
         ∨ serializedAccess x = Some OSCQAccess.WRITEONLY)
    ∧ (response ≠ respondStatus 204 →
       (ValueReadable x →
        ∃ args, _args x = Some args
                ∧ response =
                    jsonResponse
                      (JObject [("VALUE", JArray (map valueEntryJson args))]))
       ∧ (¬ ValueReadable x → response = jsonResponse (JObject [])))
    ∧ (∀ arg,
         (¬ NonNull (arg_value arg) → valueEntryJson arg = JNull)
         ∧ (NonNull (arg_value arg) →
            JSON_stringify (arg_value arg) = Some (valueEntryJson arg))).
Proof.
  intros srv pathname node Hnode x response.
  assert (Hresponse : response =
    if unreadable x
    then respondStatus 204
    else respondJson (JsObject [("VALUE", js_get (serialize (trail node) x) "VALUE")])).
  { subst response x. change "?VALUE" with ("?" +:+ "VALUE").
    rewrite (handleGet_selector srv pathname "VALUE" node); [| | done | done].
    - by rewrite andb_true_r.
    - unfold VALID_ATTRIBUTES. set_solver. }
  assert (Hunreadable : unreadable x = true
    ↔ serializedAccess x = Some 0%Z ∨ serializedAccess x = Some 2%Z).
  { unfold unreadable. by rewrite orb_true_iff, !bool_decide_eq_true. }
  split_and!.
  - apply serialize_ACCESS.
  - rewrite Hresponse, <- Hunreadable. destruct (unreadable x); [done |].
    split; [| done]. intros Heq. by apply respondJson_not_204 in Heq.
  - intros Hnot204. rewrite Hresponse in Hnot204 |- *.
    destruct (unreadable x); [done |]. split.
    + intros Hreadable. apply (js_has_VALUE_ValueReadable (trail node)) in Hreadable.
      apply serialize_VALUE in Hreadable as (args & Hargs & Hget).
      exists args. split; [done |]. rewrite Hget.
      unfold respondJson, jsonResponse. do 2 f_equal.
      cbn [JSON_stringify]. by rewrite map_map.
    + intros Hreadable. rewrite <- (js_has_VALUE_ValueReadable (trail node)) in Hreadable.
      apply not_true_is_false in Hreadable.
      by rewrite (js_has_false_js_get _ _ _ Hreadable).
  - intros arg. split; [apply valueEntryJson_unset | apply valueEntryJson_set].
Qed.

(** C1, the counterexample.  A readable method (access 3) whose only
    argument holds no value: the GET with selector [VALUE] returns status
    200 and the empty object, not a [VALUE] list. *)
Lemma get_VALUE_without_value_list :
  let srv :=
    addMethod (new_OSCQueryServer noOptions) "/volume"
      (mkMethodDescription None (Some OSCQAccess.READWRITE) None None
         (Some [mkArgument (OSCTypeSimple "f") JsUndefined None None])) in
  let response := _handleGet srv "/volume" "?VALUE" in
  (∃ node, _getNodeForPath srv "/volume" = Some node
           ∧ serializedAccess (focus node) = Some OSCQAccess.READWRITE)
  ∧ response = jsonResponse (JObject [])
  ∧ ∀ document, body response = Some document → json_get document "VALUE" = None.
Proof.
  split_and!.
  - eexists. split; by vm_compute.
  - by vm_compute.
  - intros document Hbody. vm_compute in Hbody. by simplify_eq.
Qed.

(** C2, as amended.  For a GET with a valid selector other than
    [HOST_INFO] on a path that resolves to a node for which the serializer
    does not set the selected attribute, when the answer is not the 204 of
    an unreadable [VALUE], the response has status 200 and its body is the
    empty JSON object: the selected key is left out. *)
Theorem get_missing_attribute_response :
  ∀ (srv : OSCQueryServer) (pathname q : string) (node : Cursor),
    q ∈ VALID_ATTRIBUTES →
    q ≠ "HOST_INFO" →
    _getNodeForPath srv pathname = Some node →
    js_has (serialize (trail node) (focus node)) q = false →
    statusCode (_handleGet srv pathname ("?" +:+ q)) ≠ 204%Z →
    _handleGet srv pathname ("?" +:+ q) = jsonResponse (JObject []).
Proof.
  intros srv pathname q node Hvalid Hhost Hnode Hmissing Hstatus.
  rewrite (handleGet_selector srv pathname q node) in Hstatus |- * by done.
  destruct (unreadable (focus node) && bool_decide (q = "VALUE")); [done |].
  by rewrite (js_has_false_js_get _ _ _ Hmissing).
Qed.

(** C2, the counterexample.  On a new server the root has no arguments, so
    [TYPE] is not set; [GET /?TYPE] returns status 200 and the empty
    object, in which [TYPE] is not a member (and so is not null). *)
Lemma get_missing_attribute_not_null :
  let srv := new_OSCQueryServer noOptions in
  let response := _handleGet srv "/" "?TYPE" in
  (∃ node, _getNodeForPath srv "/" = Some node
           ∧ js_has (serialize (trail node) (focus node)) "TYPE" = false)
  ∧ statusCode response = 200%Z
  ∧ body response = Some (JObject [])
  ∧ ∀ document, body response = Some document →
                json_get document "TYPE" ≠ Some JNull.
Proof.
  split_and!.
  - eexists. split; by vm_compute.
  - by vm_compute.
  - by vm_compute.
  - intros document Hbody. vm_compute in Hbody. by simplify_eq.
Qed.

(** ** References and the tree *)

Section Tree.

Lemma put_child_lookup node c x : _children (put_child node c x) !! c = Some x.
Proof. simpl. apply lookup_insert_eq. Qed.

Lemma put_child_lookup_ne node c c' x :
  c ≠ c' → _children (put_child node c x) !! c' = _children node !! c'.
Proof. intros Hne. simpl. by apply lookup_insert_ne. Qed.

Lemma put_child_not_empty node c x : isEmpty (put_child node c x) = false.
Proof.
  unfold isEmpty. apply andb_false_iff. right. simpl.
  apply Nat.eqb_neq. intros Hsize. apply map_size_empty_iff in Hsize.
  by apply insert_non_empty in Hsize.
Qed.

Lemma removeChild_children node c :
  _children (removeChild node c) = delete c (_children node).
Proof.
  unfold removeChild, hasChild. case_bool_decide as Hin; [done |].
  symmetry. apply delete_id. by apply eq_None_not_Some.
Qed.

Lemma removeChild_name node c : _name (removeChild node c) = _name node.
Proof. unfold removeChild. by destruct (hasChild node c). Qed.

Lemma removeChild_args node c : _args (removeChild node c) = _args node.
Proof. unfold removeChild. by destruct (hasChild node c). Qed.

Lemma isEmpty_spec node :
  isEmpty node = true ↔ _args node = None ∧ _children node = ∅.
Proof.
  unfold isEmpty, has_args. rewrite andb_true_iff, Nat.eqb_eq, map_size_empty_iff.
  destruct (_args node); simpl; naive_solver.
Qed.

(** *** Walking down *)

Lemma walk_focus cur components cur' :
  walk cur components = Some cur' →
  getNode (focus cur) components = Some (focus cur').
Proof.
  revert cur. induction components as [| c rest IH]; intros cur Hwalk; simpl in *.
  - by simplify_eq.
  - unfold getChild in Hwalk. destruct (_children (focus cur) !! c) as [child |]; [| done].
    by apply IH in Hwalk.
Qed.

Lemma getNode_walk cur components x :
  getNode (focus cur) components = Some x →
  ∃ cur', walk cur components = Some cur' ∧ focus cur' = x.
Proof.
  revert cur. induction components as [| c rest IH]; intros cur Hget; simpl in *.
  - simplify_eq. by eexists.
  - unfold getChild. destruct (_children (focus cur) !! c) as [child |]; [| done].
    by apply (IH (mkCursor child ((focus cur, c) :: trail cur))).
Qed.

Lemma walk_None cur components :
  walk cur components = None ↔ getNode (focus cur) components = None.
Proof.
  split.
  - intros Hwalk. destruct (getNode (focus cur) components) as [x |] eqn:Hget; [| done].
    apply (getNode_walk cur) in Hget as (cur' & Hwalk' & _). congruence.
  - intros Hget. destruct (walk cur components) as [cur' |] eqn:Hwalk; [| done].
    apply walk_focus in Hwalk. congruence.
Qed.

(** A change made through a reference is the change at its path. *)
Lemma walk_root_of cur components cur' f :
  walk cur components = Some cur' →
  root_of (f (focus cur')) (trail cur') =
  root_of (update_at components f (focus cur)) (trail cur).
Proof.
  revert cur. induction components as [| c rest IH]; intros cur Hwalk; simpl in *.
  - by simplify_eq.
  - unfold getChild in Hwalk. destruct (_children (focus cur) !! c) as [child |]; [| done].
    by rewrite (IH _ Hwalk).
Qed.

Lemma getOrCreateChild_root_of components : ∀ cur f,
  let cur' := fold_left getOrCreateChild components cur in
  root_of (f (focus cur')) (trail cur') =
  root_of (upsert_at components f (focus cur)) (trail cur).
Proof.
  induction components as [| c rest IH]; intros cur f; simpl; [done |].
  rewrite IH. unfold getOrCreateChild, getChild.
  destruct (_children (focus cur) !! c) as [child |]; simpl; [done |].
  unfold attach, put_child. simpl. by rewrite insert_insert_eq.
Qed.

Lemma addMethod_root srv path params :
  _root (addMethod srv path params) =
  upsert_at (path_split path) (λ node, setOpts node params) (_root srv).
Proof.
  unfold addMethod. simpl.
  by rewrite (getOrCreateChild_root_of _ _ (λ node, setOpts node params)).
Qed.

(** *** Lookups after an insertion *)

Lemma getNode_upsert_at components f : ∀ node,
  ∃ x0, getNode (upsert_at components f node) components = Some (f x0)
        ∧ (getNode node components = Some x0
           ∨ (getNode node components = None ∧ ∃ name, x0 = new_OSCNode name)).
Proof.
  induction components as [| c rest IH]; intros node; simpl.
  - exists node. eauto.
  - rewrite lookup_insert_eq.
    destruct (_children node !! c) as [child |] eqn:Hchild; simpl.
    + apply IH.
    + destruct (IH (new_OSCNode c)) as (x0 & Hget & Hx0). exists x0.
      split; [done |]. right. split; [done |].
      destruct Hx0 as [Hx0 | [_ ?]]; [| done].
      destruct rest as [| c' rest']; simpl in Hx0; [| done].
      simplify_eq. by eexists.
Qed.

Lemma getNode_upsert_at_existing components f node x0 :
  getNode node components = Some x0 →
  getNode (upsert_at components f node) components = Some (f x0).
Proof.
  intros Hget.
  destruct (getNode_upsert_at components f node) as (x & Hx & [? | [? _]]);
    congruence.
Qed.

(** *** Names *)

Lemma well_named_child node key child :
  well_named node → _children node !! key = Some child →
  _name child = key ∧ well_named child.
Proof. intros Hwf. inversion Hwf as [? Hchildren]. apply Hchildren. Qed.

Lemma well_named_new name : well_named (new_OSCNode name).
Proof. constructor. intros key child Hlookup. simpl in Hlookup. by rewrite lookup_empty in Hlookup. Qed.

Lemma well_named_same_children node node' :
  _children node' = _children node → well_named node → well_named node'.
Proof.
  intros Hchildren Hwf. constructor. rewrite Hchildren.
  intros key child. by apply well_named_child.
Qed.

Lemma well_named_put_child node c x :
  well_named node → _name x = c → well_named x → well_named (put_child node c x).
Proof.
  intros Hwf Hname Hx. constructor. intros key child. simpl.
  destruct (decide (c = key)) as [-> | Hne].
  - rewrite lookup_insert_eq. by intros [= <-].
  - rewrite lookup_insert_ne by done. by apply well_named_child.
Qed.

Lemma well_named_removeChild node c :
  well_named node → well_named (removeChild node c).
Proof.
  intros Hwf. constructor. intros key child. rewrite removeChild_children.
  intros Hlookup. apply lookup_delete_Some in Hlookup as [_ Hlookup].
  by apply (well_named_child node).
Qed.

(** Changes of a node that keep its name and its children keep the tree
    well named, wherever they are made. *)
Section KeepsNameAndChildren.
Context (f : OSCNode → OSCNode).
Context (f_name : ∀ x, _name (f x) = _name x).
Context (f_children : ∀ x, _children (f x) = _children x).

Lemma upsert_at_name components node :
  _name (upsert_at components f node) = _name node.
Proof. destruct components; simpl; [apply f_name | done]. Qed.

Lemma well_named_upsert_at components : ∀ node,
  well_named node → well_named (upsert_at components f node).
Proof.
  induction components as [| c rest IH]; intros node Hwf; simpl.
  - by apply (well_named_same_children node).
  - apply well_named_put_child; [done | |].
    + rewrite upsert_at_name.
      destruct (_children node !! c) as [child |] eqn:Hchild; simpl; [| done].
      by apply (well_named_child node).
    + apply IH. destruct (_children node !! c) as [child |] eqn:Hchild; simpl.
      * by apply (well_named_child node c).
      * apply well_named_new.
Qed.

Lemma update_at_name components node :
  _name (update_at components f node) = _name node.
Proof.
  destruct components as [| c rest]; simpl; [apply f_name |].
  by destruct (_children node !! c).
Qed.

Lemma well_named_update_at components : ∀ node,
  well_named node → well_named (update_at components f node).
Proof.
  induction components as [| c rest IH]; intros node Hwf; simpl.
  - by apply (well_named_same_children node).
  - destruct (_children node !! c) as [child |] eqn:Hchild; [| done].
    destruct (well_named_child _ _ _ Hwf Hchild) as [Hc Hwfc].
    apply well_named_put_child; [done | | by apply IH].
    by rewrite update_at_name.
Qed.

End KeepsNameAndChildren.

Lemma prune_name components : ∀ node, _name (prune components node) = _name node.
Proof.
  destruct components as [| c rest]; intros node; simpl; [done |].
  destruct (_children node !! c) as [child |]; [| done].
  destruct (isEmpty (prune rest child)); [| done].
  by rewrite removeChild_name.
Qed.

Lemma well_named_prune components : ∀ node,
  well_named node → well_named (prune components node).
Proof.
  induction components as [| c rest IH]; intros node Hwf; simpl.
  - by apply (well_named_same_children node).
  - destruct (_children node !! c) as [child |] eqn:Hchild; [| done].
    destruct (well_named_child _ _ _ Hwf Hchild) as [Hc Hwfc].
    assert (well_named (put_child node c (prune rest child))).
    { apply well_named_put_child; [done | | by apply IH]. by rewrite prune_name. }
    destruct (isEmpty (prune rest child)); [| done].
    by apply well_named_removeChild.
Qed.

End Tree.

(** ** [addMethod] *)

Section AddMethod.
Import JsString JsStringFacts.

Lemma getNodeForPath_getNode srv path node :
  _getNodeForPath srv path = Some node →
  getNode (_root srv) (path_split path) = Some (focus node).
Proof. intros Hnode. by apply walk_focus in Hnode. Qed.

Lemma getNode_getNodeForPath srv path x :
  getNode (_root srv) (path_split path) = Some x →
  ∃ node, _getNodeForPath srv path = Some node ∧ focus node = x.
Proof. intros Hget. by apply (getNode_walk (root_cursor srv)). Qed.

Lemma getNodeForPath_None srv path :
  _getNodeForPath srv path = None ↔ getNode (_root srv) (path_split path) = None.
Proof. apply (walk_None (root_cursor srv)). Qed.

(** *** Full paths *)

Lemma assembleFullPath_name trail : ∀ node node',
  _name node = _name node' →
  assembleFullPath node trail = assembleFullPath node' trail.
Proof.
  induction trail as [| [parent key] up IH]; intros node node' Hname; simpl; [done |].
  rewrite Hname. f_equal. by apply IH.
Qed.

Lemma concat_cons x xs : String.concat "" (x :: xs) = x +:+ String.concat "" xs.
Proof. destruct xs; simpl; [by rewrite app_nil_r | done]. Qed.

Lemma joinPath_cons c rest : joinPath (c :: rest) = "/" +:+ c +:+ joinPath rest.
Proof. unfold joinPath. rewrite map_cons, concat_cons. by rewrite app_assoc. Qed.

Lemma joinPath_nil_iff components : joinPath components = "" ↔ components = [].
Proof. destruct components; [done |]. by rewrite joinPath_cons. Qed.

Lemma walk_assembleFullPath components : ∀ cur cur',
  walk cur components = Some cur' →
  well_named (focus cur) →
  assembleFullPath (focus cur') (trail cur') =
  assembleFullPath (focus cur) (trail cur) +:+ joinPath components.
Proof.
  induction components as [| c rest IH]; intros cur cur' Hwalk Hwf; simpl in Hwalk.
  - simplify_eq. by rewrite app_nil_r.
  - unfold getChild in Hwalk.
    destruct (_children (focus cur) !! c) as [child |] eqn:Hchild; [| done].
    destruct (well_named_child _ _ _ Hwf Hchild) as [Hname Hwfc].
    rewrite (IH _ _ Hwalk Hwfc). simpl. rewrite Hname, joinPath_cons.
    rewrite (assembleFullPath_name (trail cur) _ (focus cur)) by done.
    by rewrite !app_assoc.
Qed.

Lemma serialize_FULL_PATH trail node :
  ∃ rest,
    serialize trail node =
      JsObject (("FULL_PATH",
                 JsString (if bool_decide (assembleFullPath node trail = "")
                           then "/" else assembleFullPath node trail)) :: rest).
Proof. destruct node. by eexists. Qed.

Lemma handleGet_no_selector srv pathname :
  _handleGet srv pathname "" =
  match _getNodeForPath srv pathname with
  | Some node => respondJson (serialize (trail node) (focus node))
  | None => respondStatus 404
  end.
Proof. reflexivity. Qed.

(** The full-node response for a path that resolves in a well-named
    tree. *)
Lemma handleGet_FULL_PATH srv pathname node :
  well_named (_root srv) →
  _getNodeForPath srv pathname = Some node →
  statusCode (_handleGet srv pathname "") = 200%Z
  ∧ ∃ document,
      body (_handleGet srv pathname "") = Some document
      ∧ json_get document "FULL_PATH" = Some (JString (canonicalPath pathname)).
Proof.
  intros Hwf Hnode. rewrite handleGet_no_selector, Hnode. split; [done |].
  destruct (serialize_FULL_PATH (trail node) (focus node)) as [rest ->].
  eexists. split; [reflexivity |]. simpl. do 2 f_equal.
  unfold _getNodeForPath in Hnode.
  rewrite (walk_assembleFullPath _ _ _ Hnode Hwf). simpl.
  unfold canonicalPath.
  destruct (path_split pathname) as [| c rest'] eqn:Hsplit; [done |].
  rewrite bool_decide_eq_false_2; [done |].
  by rewrite joinPath_cons.
Qed.

(** *** Paths written in canonical form *)

Lemma find_first_slash c r :
  ¬ Occurs "/" c → find_first "/" (c +:+ "/" +:+ r) = Some (c, r).
Proof. apply find_first_unit. Qed.

Lemma split_joinPath components : ∀ c0,
  ¬ Occurs "/" c0 →
  Forall Segment components →
  split (c0 +:+ joinPath components) "/" = c0 :: components.
Proof.
  induction components as [| c rest IH]; intros c0 Hc0 Hsegments.
  - rewrite app_nil_r, split_find_first by done.
    apply find_first_None in Hc0. by rewrite Hc0.
  - apply Forall_cons in Hsegments as [[_ Hc] Hrest].
    rewrite joinPath_cons, split_find_first by done.
    rewrite find_first_slash by done. f_equal. by apply IH.
Qed.

Lemma path_split_joinPath components :
  Forall Segment components → path_split (joinPath components) = components.
Proof.
  intros Hsegments. unfold path_split.
  rewrite <- (app_nil_l (joinPath components)).
  rewrite split_joinPath; [| by intros ([| ? ?] & ? & ?) | done].
  rewrite filter_cons_False by naive_solver.
  induction Hsegments as [| c rest [Hc _] _ IH]; [done |].
  rewrite filter_cons_True by done. by rewrite IH.
Qed.

Lemma canonicalPath_canonical path :
  (path = "/"
   ∨ ∃ components, components ≠ [] ∧ Forall Segment components
                   ∧ path = joinPath components) →
  canonicalPath path = path.
Proof.
  intros [-> | (components & Hne & Hsegments & ->)]; [done |].
  unfold canonicalPath. rewrite path_split_joinPath by done.
  by destruct components.
Qed.

End AddMethod.

(** C10.  When the path already resolves to a node, [addMethod] leaves the
    children of that node (and its name) as they were and gives its five
    metadata fields the values of the given description, a field the
    description does not have becoming unset. *)
Theorem addMethod_replaces_metadata_keeps_children :
  ∀ (srv : OSCQueryServer) (path : string) (params : MethodDescription)
    (node : Cursor),
    _getNodeForPath srv path = Some node →
    ∃ node',
      _getNodeForPath (addMethod srv path params) path = Some node'
      ∧ _children (focus node') = _children (focus node)
      ∧ _name (focus node') = _name (focus node)
      ∧ _description (focus node') = description params
      ∧ _access (focus node') = access params
      ∧ _tags (focus node') = tags params
      ∧ _critical (focus node') = critical params
      ∧ _args (focus node') = arguments params.
Proof.
  intros srv path params node Hnode.
  apply getNodeForPath_getNode in Hnode.
  destruct (getNode_getNodeForPath (addMethod srv path params) path
              (setOpts (focus node) params)) as (node' & Hnode' & Hfocus).
  { rewrite addMethod_root.
    by apply (getNode_upsert_at_existing _ (λ x, setOpts x params)). }
  exists node'. rewrite Hfocus. by split_and!.
Qed.



(** ** [removeMethod] *)

Section RemoveMethod.

Lemma removeMethod_loop_not_empty node trail :
  isEmpty node = false → removeMethod_loop node trail = root_of node trail.
Proof. intros Hne. destruct trail as [| [parent key] up]; simpl; [done |]. by rewrite Hne. Qed.

(** The loop, started at the target, does what [prune] does from above. *)
Lemma removeMethod_loop_prune components : ∀ cur cur',
  walk cur components = Some cur' →
  removeMethod_loop (setOpts (focus cur') emptyDescription) (trail cur') =
  removeMethod_loop (prune components (focus cur)) (trail cur).
Proof.
  induction components as [| c rest IH]; intros cur cur' Hwalk; simpl in Hwalk.
  - by simplify_eq.
  - unfold getChild in Hwalk. cbn [prune].
    destruct (_children (focus cur) !! c) as [child |] eqn:Hchild; [| done].
    rewrite (IH _ _ Hwalk). cbn [removeMethod_loop focus trail].
    destruct (isEmpty (prune rest child)); [done |].
    cbn [root_of]. unfold attach.
    by rewrite removeMethod_loop_not_empty by apply put_child_not_empty.
Qed.

Lemma removeMethod_root srv path node :
  _getNodeForPath srv path = Some node →
  _root (removeMethod srv path) = prune (path_split path) (_root srv).
Proof.
  intros Hnode. unfold removeMethod. rewrite Hnode. simpl.
  by rewrite (removeMethod_loop_prune _ _ _ Hnode).
Qed.

(** One step of [prune] in a well-named tree. *)
Lemma prune_cons c rest node child :
  well_named node →
  _children node !! c = Some child →
  _args (prune (c :: rest) node) = _args node
  ∧ _children (prune (c :: rest) node) =
      if isEmpty (prune rest child)
      then delete c (_children node)
      else <[c := prune rest child]> (_children node).
Proof.
  intros Hwf Hchild. destruct (well_named_child _ _ _ Hwf Hchild) as [Hname _].
  cbn [prune]. rewrite Hchild. cbv zeta.
  destruct (isEmpty (prune rest child)); [| done].
  rewrite removeChild_args, removeChild_children, prune_name, Hname. simpl.
  by rewrite delete_insert_eq.
Qed.

(** If the target stays, it is the old node with its metadata cleared. *)
Lemma prune_target components : ∀ node target x,
  well_named node →
  getNode node components = Some target →
  getNode (prune components node) components = Some x →
  x = setOpts target emptyDescription.
Proof.
  induction components as [| c rest IH]; intros node target x Hwf Htarget Hx.
  - simpl in *. by simplify_eq.
  - cbn [getNode] in Htarget, Hx.
    destruct (_children node !! c) as [child |] eqn:Hchild; [| done].
    destruct (prune_cons c rest node child Hwf Hchild) as [_ Hchildren].
    rewrite Hchildren in Hx.
    destruct (well_named_child _ _ _ Hwf Hchild) as [_ Hwfc].
    destruct (isEmpty (prune rest child)).
    + by rewrite lookup_delete_eq in Hx.
    + rewrite lookup_insert_eq in Hx. by eapply IH.
Qed.

(** A target that has children (or is the root) stays, and so does the
    whole path to it. *)
Lemma prune_kept components : ∀ node target,
  well_named node →
  getNode node components = Some target →
  components = [] ∨ _children target ≠ ∅ →
  getNode (prune components node) components =
    Some (setOpts target emptyDescription).
Proof.
  induction components as [| c rest IH]; intros node target Hwf Htarget Hkeep.
  - simpl in *. by simplify_eq.
  - destruct Hkeep as [? | Hkeep]; [done |].
    cbn [getNode] in Htarget |- *.
    destruct (_children node !! c) as [child |] eqn:Hchild; [| done].
    destruct (prune_cons c rest node child Hwf Hchild) as [_ Hchildren].
    destruct (well_named_child _ _ _ Hwf Hchild) as [_ Hwfc].
    assert (Hrec : getNode (prune rest child) rest =
                   Some (setOpts target emptyDescription)).
    { apply IH; [done | done |]. destruct rest; [by left | by right]. }
    assert (Hne : isEmpty (prune rest child) = false).
    { apply not_true_is_false. intros [_ Hempty]%isEmpty_spec.
      destruct rest as [| c' rest'].
      - simpl in Hrec, Htarget, Hempty. by simplify_eq.
      - cbn [getNode] in Hrec. by rewrite Hempty, lookup_empty in Hrec. }
    rewrite Hchildren, Hne, lookup_insert_eq. done.
Qed.

(** No node left on the path below the root is empty. *)
Lemma prune_no_empty components : ∀ node target k x,
  well_named node →
  getNode node components = Some target →
  0 < k ≤ length components →
  getNode (prune components node) (take k components) = Some x →
  isEmpty x = false.
Proof.
  induction components as [| c rest IH]; intros node target k x Hwf Htarget Hk Hx.
  - simpl in Hk. lia.
  - destruct k as [| k]; [lia |]. cbn [take getNode] in Htarget, Hx.
    destruct (_children node !! c) as [child |] eqn:Hchild; [| done].
    destruct (prune_cons c rest node child Hwf Hchild) as [_ Hchildren].
    destruct (well_named_child _ _ _ Hwf Hchild) as [_ Hwfc].
    rewrite Hchildren in Hx.
    destruct (isEmpty (prune rest child)) eqn:Hempty.
    + by rewrite lookup_delete_eq in Hx.
    + rewrite lookup_insert_eq in Hx. destruct k as [| k].
      * simpl in Hx. by simplify_eq.
      * eapply (IH child target (S k)); [done | done | simpl in Hk; lia | done].
Qed.

(** A pruned subtree that comes out empty had nothing but the path. *)
Lemma prune_empty rest child target :
  well_named child →
  getNode child rest = Some target →
  isEmpty (prune rest child) = true →
  EmptyApartFrom child rest.
Proof.
  intros Hwf Htarget [Hargs Hempty]%isEmpty_spec.
  destruct rest as [| c rest]; [done |]. cbn [getNode] in Htarget.
  destruct (_children child !! c) as [grandchild |] eqn:Hchild; [| done].
  destruct (prune_cons c rest child grandchild Hwf Hchild) as [Hargs' Hchildren].
  rewrite Hargs' in Hargs. rewrite Hchildren in Hempty.
  destruct (isEmpty (prune rest grandchild)); [done |].
  by apply insert_non_empty in Hempty.
Qed.

(** Every node taken off the path was empty when it was removed. *)
Lemma prune_removed_empty components : ∀ node target k,
  well_named node →
  getNode node components = Some target →
  k ≤ length components →
  getNode (prune components node) (take k components) = None →
  ∃ x0, getNode node (take k components) = Some x0
        ∧ EmptyApartFrom x0 (drop k components).
Proof.
  induction components as [| c rest IH]; intros node target k Hwf Htarget Hk Hgone.
  - by destruct k.
  - destruct k as [| k]; [done |]. cbn [take drop getNode] in Htarget, Hgone |- *.
    destruct (_children node !! c) as [child |] eqn:Hchild; [| done].
    destruct (prune_cons c rest node child Hwf Hchild) as [_ Hchildren].
    destruct (well_named_child _ _ _ Hwf Hchild) as [_ Hwfc].
    rewrite Hchildren in Hgone. simpl in Hk.
    destruct (isEmpty (prune rest child)) eqn:Hempty.
    + destruct k as [| k].
      * exists child. split; [done |]. by eapply prune_empty.
      * apply (IH child target (S k)); [done | done | lia |].
        apply isEmpty_spec in Hempty as [_ Hempty].
        destruct rest as [| c' rest']; [simpl in Hk; lia |].
        cbn [take getNode]. by rewrite Hempty, lookup_empty.
    + rewrite lookup_insert_eq in Hgone.
      apply (IH child target k); [done | done | lia | done].
Qed.

End RemoveMethod.



(** ** The trees a server can hold are well named *)

Section Reachable.

Lemma well_named_new_server opts : well_named (_root (new_OSCQueryServer opts)).
Proof.
  simpl. apply (well_named_same_children (new_OSCNode "")); [done |].
  apply well_named_new.
Qed.

Lemma well_named_addMethod srv path params :
  well_named (_root srv) → well_named (_root (addMethod srv path params)).
Proof. intros Hwf. rewrite addMethod_root. by apply well_named_upsert_at. Qed.

Lemma well_named_removeMethod srv path :
  well_named (_root srv) → well_named (_root (removeMethod srv path)).
Proof.
  intros Hwf. destruct (_getNodeForPath srv path) as [node |] eqn:Hnode.
  - rewrite (removeMethod_root _ _ _ Hnode). by apply well_named_prune.
  - unfold removeMethod. by rewrite Hnode.
Qed.

Lemma OSCNode_setValue_same node arg_index value node' :
  OSCNode_setValue node arg_index value = inr node' →
  _name node' = _name node ∧ _children node' = _children node.
Proof.
  unfold OSCNode_setValue. destruct (_args node); [| done].
  destruct (_ <=? _)%Z; [done |]. destruct (arg_at _ _); [| done].
  by intros [= <-].
Qed.

Lemma OSCNode_unsetValue_same node arg_index node' :
  OSCNode_unsetValue node arg_index = inr node' →
  _name node' = _name node ∧ _children node' = _children node.
Proof.
  unfold OSCNode_unsetValue. destruct (_args node); [| done].
  destruct (_ <=? _)%Z; [done |]. destruct (arg_at _ _); [| done].
  by intros [= <-].
Qed.

(** A change of the target that keeps its name and children. *)
Lemma well_named_root_of srv path node node' :
  well_named (_root srv) →
  _getNodeForPath srv path = Some node →
  _name node' = _name (focus node) →
  _children node' = _children (focus node) →
  well_named (root_of node' (trail node)).
Proof.
  intros Hwf Hnode Hname Hchildren.
  set (f := λ x : OSCNode,
         mkOSCNode (_name x) (_description node') (_access node') (_tags node')
                   (_critical node') (_args node') (_children x)).
  assert (Hf : node' = f (focus node)).
  { unfold f. rewrite <- Hname, <- Hchildren. by destruct node'. }
  rewrite Hf, (walk_root_of _ _ _ f Hnode).
  by apply well_named_update_at.
Qed.

Lemma well_named_setValue srv path arg_index value :
  well_named (_root srv) →
  well_named (_root (state_of (setValue srv path arg_index value))).
Proof.
  intros Hwf. unfold setValue.
  destruct (_getNodeForPath srv path) as [node |] eqn:Hnode; [| done].
  destruct (OSCNode_setValue (focus node) arg_index value) as [err | node'] eqn:Hset;
    [done |].
  apply OSCNode_setValue_same in Hset as [Hname Hchildren].
  by apply (well_named_root_of srv path).
Qed.

Lemma well_named_unsetValue srv path arg_index :
  well_named (_root srv) →
  well_named (_root (state_of (unsetValue srv path arg_index))).
Proof.
  intros Hwf. unfold unsetValue.
  destruct (_getNodeForPath srv path) as [node |] eqn:Hnode; [| done].
  destruct (OSCNode_unsetValue (focus node) arg_index) as [err | node'] eqn:Hset;
    [done |].
  apply OSCNode_unsetValue_same in Hset as [Hname Hchildren].
  by apply (well_named_root_of srv path).
Qed.

Create HintDb well_named.

#[local] Hint Resolve well_named_new_server well_named_addMethod
  well_named_removeMethod well_named_setValue well_named_unsetValue : well_named.

Lemma well_named_apply_server_op srv op :
  well_named (_root srv) → well_named (_root (apply_server_op srv op)).
Proof. destruct op; cbn [apply_server_op]; auto with well_named. Qed.

(** Every tree reached from a new server by the public methods is well
    named. *)
Lemma well_named_run_server_ops ops : ∀ srv,
  well_named (_root srv) → well_named (_root (run_server_ops ops srv)).
Proof.
  induction ops as [| op ops IH]; intros srv Hwf; simpl; [done |].
  by apply IH, well_named_apply_server_op.
Qed.

Lemma well_named_sampleServer : well_named (_root sampleServer).
Proof. unfold sampleServer. auto with well_named. Qed.

End Reachable.

(** ** The theorems at sample inputs *)

(** C1 on [/chatbox/input] of the sample server, a write-only method: the
    answer to [?VALUE] is 204. *)
Lemma get_VALUE_response_witness :
  ∃ node,
    _getNodeForPath sampleServer "/chatbox/input" = Some node
    ∧ serializedAccess (focus node) = Some OSCQAccess.WRITEONLY
    ∧ (_handleGet sampleServer "/chatbox/input" "?VALUE" = respondStatus 204
       ↔ serializedAccess (focus node) = Some OSCQAccess.NO_VALUE
         ∨ serializedAccess (focus node) = Some OSCQAccess.WRITEONLY).
Proof.
  assert (Hnode : ∃ node,
    _getNodeForPath sampleServer "/chatbox/input" = Some node
    ∧ serializedAccess (focus node) = Some OSCQAccess.WRITEONLY).
  { eexists. split; vm_compute; reflexivity. }
  destruct Hnode as (node & Hnode & Haccess).
  exists node. split; [exact Hnode |]. split; [exact Haccess |].
  exact (proj1 (proj2 (get_VALUE_response sampleServer "/chatbox/input" node Hnode))).
Defined.

(** C2 on the root of a new server and the selector [TYPE]. *)
Lemma get_missing_attribute_response_witness :
  "TYPE" ∈ VALID_ATTRIBUTES
  ∧ _handleGet (new_OSCQueryServer noOptions) "/" ("?" +:+ "TYPE")
    = jsonResponse (JObject []).
Proof.
  assert (Hvalid : "TYPE" ∈ VALID_ATTRIBUTES).
  { unfold VALID_ATTRIBUTES. do 2 right. left. }
  split; [exact Hvalid |].
  apply (get_missing_attribute_response (new_OSCQueryServer noOptions) "/" "TYPE"
           (root_cursor (new_OSCQueryServer noOptions))).
  - exact Hvalid.
  - discriminate.
  - reflexivity.
  - reflexivity.
  - vm_compute. discriminate.
Defined.



(** C6 on a readable node with one argument that has a range, a value and
    no clip mode. *)
Lemma serialize_range_clipmode_value_keys_witness :
  let node := setOpts (new_OSCNode "volume") volume in
  let args := default [] (arguments volume) in
  _args node = Some args
  ∧ (js_has (serialize [] node) "RANGE" = true
     ↔ ∃ arg, arg ∈ args ∧ arg_range arg ≠ None).
Proof.
  split; [reflexivity |].
  exact (proj1 (serialize_range_clipmode_value_keys []
                  (setOpts (new_OSCNode "volume") volume)
                  (default [] (arguments volume)) eq_refl)).
Defined.


(** C10 on the sample server: [/chatbox] exists and has the child
    [input]. *)
Lemma addMethod_replaces_metadata_keeps_children_witness :
  ∃ node node',
    _getNodeForPath sampleServer "/chatbox" = Some node
    ∧ _getNodeForPath (addMethod sampleServer "/chatbox" volume) "/chatbox" = Some node'
    ∧ _children (focus node') = _children (focus node)
    ∧ _args (focus node') = arguments volume.
Proof.
  assert (Hnode : ∃ node, _getNodeForPath sampleServer "/chatbox" = Some node).
  { eexists. vm_compute. reflexivity. }
  destruct Hnode as (node & Hnode).
  destruct (addMethod_replaces_metadata_keeps_children sampleServer "/chatbox" volume
              node Hnode)
    as (node' & Hnode' & Hchildren & _ & _ & _ & _ & _ & Hargs).
  exists node, node'. split; [exact Hnode |]. split; [exact Hnode' |].
  split; [exact Hchildren | exact Hargs].
Defined.

(** ** The scenarios of the specification, evaluated *)

(** S1, S2: a write-only method has no [VALUE], and [?VALUE] gives 204. *)
Example scenario_chatbox_input :
  let srv := addMethod (new_OSCQueryServer noOptions) "/chatbox/input" chatboxInput in
  _handleGet srv "/chatbox/input" "" =
    jsonResponse
      (JObject [("FULL_PATH", JString "/chatbox/input");
                ("DESCRIPTION", JString "VRChat Chatbox Input");
                ("ACCESS", JNumber (inject_Z 2));
                ("TYPE", JString "sT")])
  ∧ _handleGet srv "/chatbox/input" "?VALUE" = respondStatus 204.
Proof. split; reflexivity. Qed.

(** S3: type, access, range and value of a readable method. *)
Example scenario_range_and_value :
  let srv :=
    addMethod (new_OSCQueryServer noOptions) "/a/b/c"
      (mkMethodDescription None (Some OSCQAccess.READWRITE) None None
         (Some [mkArgument (OSCTypeSimple "f") JsUndefined
                  (Some (RangeObject (JsNumber 0) (JsNumber 1) JsUndefined)) None])) in
  match setValue srv "/a/b/c" 0 (JsNumber (1 # 2)) with
  | Returned srv' =>
      _handleGet srv' "/a/b/c" "" =
        jsonResponse
          (JObject [("FULL_PATH", JString "/a/b/c");
                    ("ACCESS", JNumber (inject_Z 3));
                    ("TYPE", JString "f");
                    ("RANGE", JArray [JObject [("MAX", JNumber 1); ("MIN", JNumber 0)]]);
                    ("VALUE", JArray [JNumber (1 # 2)])])
  | Thrown _ _ => False
  end.
Proof. reflexivity. Qed.

(** S4: unknown path, other method, unknown selector. *)
Example scenario_client_errors :
  let srv := new_OSCQueryServer noOptions in
  _httpHandler srv "GET" "/does/not/exist" "" = respondStatus 404
  ∧ _httpHandler srv "POST" "/anything" "" = respondStatus 400
  ∧ _httpHandler srv "GET" "/" "?HELLO" = respondStatus 400.
Proof. split_and!; reflexivity. Qed.

(** S6: acceptance is a disjunction over the subscribed patterns. *)
Example scenario_subscriptions :
  let f1 := subscribe (subscribe new_VRChatOSCQuery "/avatar/parameters/*")
                      "/avatar/parameters/(!?vrcft)" in
  let f2 := unsubscribe f1 "/avatar/parameters/*" in
  shouldProcessMessage f1 "/avatar/parameters/mood" = true
  ∧ shouldProcessMessage f1 "/avatar/parameters/vrcft/eye" = true
  ∧ shouldProcessMessage f2 "/avatar/parameters/vrcft/eye" = false
  ∧ shouldProcessMessage f2 "/avatar/parameters/mood" = true.
Proof. split_and!; by vm_compute. Qed.

(* ================================================================== *)
(** * Part IV: further properties of the code                          *)
(* ================================================================== *)

(** ** The status codes of the HTTP handler *)

Section HttpStatus.

Lemma stringify_serialize_is_Some trail node :
  is_Some (JSON_stringify (serialize trail node)).
Proof. destruct (serialize_FULL_PATH trail node) as [rest ->]. by eexists. Qed.

Lemma BadSelector_test search :
  truthyString (queryOf search) && negb (validAttribute (queryOf search)) = true
  ↔ BadSelector search.
Proof.
  unfold BadSelector. destruct (queryOf search) as [q |]; simpl.
  - rewrite andb_true_iff, !negb_true_iff, !bool_decide_eq_false. naive_solver.
  - split; [done | by intros (? & ? & _)].
Qed.

Lemma handleGet_unfold srv pathname search :
  _handleGet srv pathname search =
  if truthyString (queryOf search) && negb (validAttribute (queryOf search))
  then respondStatus 400
  else if bool_decide (queryOf search = Some "HOST_INFO")
  then respondJson (hostInfo (_opts srv))
  else match _getNodeForPath srv pathname with
       | None => respondStatus 404
       | Some node =>
           if truthyString (queryOf search)
              && unreadable (focus node)
              && bool_decide (queryOf search = Some "VALUE")
           then respondStatus 204
           else respondJson
                  (match queryOf search with
                   | Some q =>
                       if truthyString (queryOf search)
                       then JsObject [(q, js_get (serialize (trail node) (focus node)) q)]
                       else serialize (trail node) (focus node)
                   | None => serialize (trail node) (focus node)
                   end)
       end.
Proof.
  unfold _handleGet, _getNodeForPath. fold (queryOf search).
  destruct (truthyString (queryOf search) && negb (validAttribute (queryOf search)));
    [done |].
  destruct (bool_decide (queryOf search = Some "HOST_INFO")); [done |].
  destruct (walk (root_cursor srv) (path_split pathname)) as [node |]; [| done].
  destruct (queryOf search) as [q |]; [| done].
  destruct (truthyString (Some q)); [| done]. cbn [negb andb].
  rewrite serialize_ACCESS, isUndefined_jsOfNumber, !looseEqNumber_jsOfNumber.
  unfold unreadable.
  assert (Hq : bool_decide (Some q = Some "VALUE") = bool_decide (q = "VALUE")).
  { apply bool_decide_ext. naive_solver. }
  rewrite Hq.
  destruct (serializedAccess (focus node)) as [a |]; simpl; done.
Qed.

End HttpStatus.


(** ** The keys of a serialized node *)

(** Facts about lists of concrete keys are decided by computation. *)
Ltac key_facts := apply (bool_decide_unpack _); vm_compute; exact I.

Ltac key_absent H := apply (bool_decide_pack _) in H; vm_compute in H; exact H.

Ltac key_iff :=
  lazymatch goal with
  | |- ?k ∈ ?keys ↔ _ =>
      first
        [ assert (k ∈ keys) by key_facts;
          split; [intros _ | done];
          first [done | by eexists | by left; eexists | by right]
        | let H := fresh in
          assert (k ∉ keys) by (intros H; key_absent H);
          split; [done |];
          first [by intros [? ?] | by intros [[? ?] | ?] | done] ]
  end.

Section SerializeKeys.

Lemma ownKeys_selectable k :
  k ∈ ownKeys → k ∈ VALID_ATTRIBUTES ∧ k ≠ "HOST_INFO".
Proof.
  unfold ownKeys. intros Hk.
  repeat (apply elem_of_cons in Hk as [-> | Hk]);
    [.. | by apply elem_of_nil in Hk]; (split; [key_facts | done]).
Qed.

Lemma ownKeys_not_args k :
  k ∈ ownKeys → k ≠ "TYPE" ∧ k ≠ "RANGE" ∧ k ≠ "CLIPMODE" ∧ k ≠ "VALUE".
Proof.
  unfold ownKeys. intros Hk.
  repeat (apply elem_of_cons in Hk as [-> | Hk]);
    [.. | by apply elem_of_nil in Hk]; done.
Qed.

Lemma js_has_keys o k : js_has o k = true ↔ k ∈ js_keys o.
Proof.
  destruct o; simpl; try by (split; [done | intros []%elem_of_nil]).
  apply bool_decide_eq_true.
Qed.

Lemma serialize_args_NoDup access args :
  NoDup (map fst (serialize_args access args)).
Proof.
  unfold serialize_args.
  destruct (allNull (map arg_range args)), (allNull (map arg_clipmode args)),
    (allNull (map (λ arg, coalesceNull (arg_value arg)) args));
    destruct access as [a |]; simpl;
    try destruct ((a =? 1)%Z || (a =? 3)%Z); simpl;
    repeat (apply NoDup_cons; split; [set_solver |]); apply NoDup_nil_2.
Qed.

Lemma serialize_args_TYPE access args :
  props_get "TYPE" (serialize_args access args) = JsString (typeString args).
Proof. reflexivity. Qed.

(** The keys of [serialize()], and the values of those that do not depend
    on the arguments. *)
Lemma serialize_own trail node :
  ∃ own : list (string * JsValue),
    serialize trail node =
      JsObject (own ++ match _args node with
                       | Some args => serialize_args (_access node) args
                       | None => []
                       end)
    ∧ NoDup (map fst own)
    ∧ (∀ k, k ∈ map fst own → k ∈ ownKeys)
    ∧ "FULL_PATH" ∈ map fst own
    ∧ ("DESCRIPTION" ∈ map fst own ↔ truthyString (_description node) = true)
    ∧ ("ACCESS" ∈ map fst own ↔ is_Some (_access node) ∨ isContainer node = true)
    ∧ ("TAGS" ∈ map fst own ↔ is_Some (_tags node))
    ∧ ("CRITICAL" ∈ map fst own ↔ is_Some (_critical node))
    ∧ ("CONTENTS" ∈ map fst own ↔ _children node ≠ ∅)
    ∧ props_get "DESCRIPTION" own =
        (if truthyString (_description node) then jsOfString (_description node)
         else JsUndefined)
    ∧ props_get "TAGS" own =
        match _tags node with
        | Some t => JsArray (map JsString t)
        | None => JsUndefined
        end
    ∧ props_get "CRITICAL" own =
        match _critical node with
        | Some b => JsBool b
        | None => JsUndefined
        end.
Proof.
  destruct node as [name desc acc tgs crit args children].
  eexists. split.
  { cbn [serialize _args _access _description _tags _critical _children _name].
    rewrite !(assoc_L (++)). reflexivity. }
  cbn [_access _args _description _tags _critical _children]. unfold ownKeys.
  assert (Hsize : (0 <? size children) = true ↔ children ≠ ∅).
  { rewrite Nat.ltb_lt, <- map_size_non_empty_iff. lia. }
  rewrite <- Hsize. clear Hsize.
  generalize (isContainer (mkOSCNode name desc acc tgs crit args children)).
  intros container.
  destruct (truthyString desc), acc, container, tgs, crit,
    (0 <? size children); simpl;
    (split_and!;
     [ key_facts | apply Forall_forall; key_facts | key_facts
     | key_iff | key_iff | key_iff | key_iff | key_iff
     | done | done | done ]).
Qed.

Lemma truthyString_Some o : truthyString o = true ↔ ∃ d, o = Some d ∧ d ≠ "".
Proof.
  destruct o as [d |]; simpl.
  - rewrite negb_true_iff, bool_decide_eq_false. naive_solver.
  - split; [done | by intros (? & ? & _)].
Qed.

End SerializeKeys.

(** X2.  The object [serialize()] builds has no key twice and every key
    is a selectable attribute.  [FULL_PATH] is always there; [DESCRIPTION]
    iff the description is a non-empty text; [ACCESS] iff the access is set
    or the node is a container; [TAGS] and [CRITICAL] iff set; [CONTENTS]
    iff the node has a child; [TYPE] iff the node has arguments, and it is
    then the concatenation of the type strings of the arguments. *)
Theorem serialize_key_table :
  ∀ (trail : list (OSCNode * string)) (node : OSCNode),
    let result := serialize trail node in
    NoDup (js_keys result)
    ∧ (∀ k, js_has result k = true → k ∈ VALID_ATTRIBUTES ∧ k ≠ "HOST_INFO")
    ∧ js_has result "FULL_PATH" = true
    ∧ (js_has result "DESCRIPTION" = true
       ↔ ∃ d, _description node = Some d ∧ d ≠ "")
    ∧ (js_has result "ACCESS" = true
       ↔ is_Some (_access node) ∨ isContainer node = true)
    ∧ (js_has result "TAGS" = true ↔ is_Some (_tags node))
    ∧ (js_has result "CRITICAL" = true ↔ is_Some (_critical node))
    ∧ (js_has result "CONTENTS" = true ↔ _children node ≠ ∅)
    ∧ (js_has result "TYPE" = true ↔ is_Some (_args node))
    ∧ (∀ args, _args node = Some args →
               js_get result "TYPE" = JsString (typeString args)).
Proof.
  intros trail node result. subst result.
  destruct (serialize_own trail node)
    as (own & -> & Hnodup & Hown & Hpath & Hdesc & Hacc & Htags & Hcrit & Hcont & _).
  assert (Hargs : ∀ k,
    k ∈ map fst (match _args node with
                 | Some args => serialize_args (_access node) args
                 | None => []
                 end)
    → k = "TYPE" ∨ k = "RANGE" ∨ k = "CLIPMODE" ∨ k = "VALUE").
  { intros k. destruct (_args node) as [args |]; [| by intros []%elem_of_nil].
    rewrite serialize_args_keys. naive_solver. }
  assert (Hin : ∀ k, k ∈ ownKeys →
    js_has (JsObject (own ++ match _args node with
                             | Some args => serialize_args (_access node) args
                             | None => []
                             end)) k = true ↔ k ∈ map fst own).
  { intros k Hk. simpl. rewrite bool_decide_eq_true, map_app, elem_of_app.
    split; [| by left]. intros [? | Hin]; [done |].
    apply Hargs in Hin. apply ownKeys_not_args in Hk. naive_solver. }
  split_and!.
  - simpl. rewrite map_app. apply NoDup_app. split_and!; [done | |].
    + intros k Hk Hk'. apply Hown, ownKeys_not_args in Hk. apply Hargs in Hk'.
      naive_solver.
    + destruct (_args node); [apply serialize_args_NoDup | apply NoDup_nil_2].
  - intros k. simpl. rewrite bool_decide_eq_true, map_app, elem_of_app.
    intros [Hk%Hown | Hk%Hargs]; [by apply ownKeys_selectable |].
    destruct Hk as [-> | [-> | [-> | ->]]]; (split; [key_facts | done]).
  - apply Hin; [key_facts | done].
  - rewrite Hin, Hdesc by key_facts. apply truthyString_Some.
  - by rewrite Hin by key_facts.
  - by rewrite Hin by key_facts.
  - by rewrite Hin by key_facts.
  - by rewrite Hin by key_facts.
  - simpl. rewrite bool_decide_eq_true, map_app, elem_of_app. split.
    + intros [Hk%Hown%ownKeys_not_args | Hk]; [naive_solver |].
      destruct (_args node); [by eexists | by apply elem_of_nil in Hk].
    + intros [args ->]. right. apply serialize_args_keys. by left.
  - intros args Hargs'. simpl. rewrite props_get_app, Hargs'.
    rewrite bool_decide_eq_false_2; [apply serialize_args_TYPE |].
    intros Hk%Hown%ownKeys_not_args. naive_solver.
Qed.

(** ** Paths and their components *)

Section Paths.
Import JsString JsStringFacts.

Lemma FirstOccurrence_left tok s l r :
  tok ≠ "" → FirstOccurrence tok s l r → ¬ Occurs tok l.
Proof.
  intros Htok [-> Hmin] (l1 & r1 & ->).
  specialize (Hmin l1 (r1 +:+ tok +:+ r)).
  rewrite !app_assoc in Hmin. specialize (Hmin eq_refl).
  rewrite !app_length in Hmin.
  destruct tok; [done |]. simpl in Hmin. lia.
Qed.

Lemma split_pieces_no_slash s : Forall (λ p, ¬ Occurs "/" p) (split s "/").
Proof.
  remember (String.length s) as n eqn:Hn. revert s Hn.
  induction n as [n IH] using lt_wf_ind. intros s ->.
  rewrite split_find_first by done.
  destruct (find_first "/" s) as [[l r] |] eqn:Hfind.
  - apply find_first_Some in Hfind as Hfirst.
    apply Forall_cons. split.
    + by apply (FirstOccurrence_left "/" s l r).
    + destruct Hfirst as [-> _].
      apply (IH (String.length r)); [| done].
      rewrite !app_length. simpl. lia.
  - apply find_first_None in Hfind. by apply Forall_singleton.
Qed.

Lemma path_split_Segment path : Forall Segment (path_split path).
Proof.
  apply Forall_forall. intros c [Hc Hin]%list_elem_of_filter.
  split; [done |].
  by apply (proj1 (Forall_forall _ _) (split_pieces_no_slash path)).
Qed.

Lemma split_app_slash p q : split (p +:+ "/" +:+ q) "/" = split p "/" ++ split q "/".
Proof.
  remember (String.length p) as n eqn:Hn. revert p Hn.
  induction n as [n IH] using lt_wf_ind. intros p ->.
  rewrite (split_find_first p) by done.
  destruct (find_first "/" p) as [[l r] |] eqn:Hfind.
  - apply find_first_Some in Hfind as Hfirst.
    pose proof (FirstOccurrence_left "/" p l r ltac:(done) Hfirst) as Hl.
    destruct Hfirst as [-> _].
    rewrite !app_assoc, split_find_first, find_first_slash by done.
    simpl. f_equal. apply (IH (String.length r)); [| done].
    rewrite !app_length. simpl. lia.
  - apply find_first_None in Hfind.
    by rewrite split_find_first, find_first_slash by done.
Qed.

Lemma path_split_app p q :
  path_split (p +:+ "/" +:+ q) = path_split p ++ path_split q.
Proof. unfold path_split. by rewrite split_app_slash, filter_app. Qed.

Lemma path_split_canonicalPath path :
  path_split (canonicalPath path) = path_split path.
Proof.
  unfold canonicalPath.
  pose proof (path_split_Segment path) as Hsegments.
  destruct (path_split path) as [| c rest] eqn:Hsplit; [done |].
  by apply path_split_joinPath.
Qed.

Lemma path_split_segment k : Segment k → path_split k = [k].
Proof.
  intros [Hne Hk]. unfold path_split.
  rewrite split_find_first by done.
  apply find_first_None in Hk. rewrite Hk.
  by rewrite filter_cons_True, filter_nil.
Qed.

End Paths.

(** X3.  The components of a path are never empty and never contain a
    slash; joining two paths with a slash concatenates their components
    (so leading, trailing and doubled slashes are ignored); and the
    canonical spelling of a path has the same components, so it names the
    same node for [_getNodeForPath], [addMethod] and [removeMethod]. *)
Theorem path_components :
  ∀ (path path' : string),
    Forall Segment (path_split path)
    ∧ path_split (path +:+ "/" +:+ path') = path_split path ++ path_split path'
    ∧ path_split (path +:+ "/") = path_split path
    ∧ path_split ("/" +:+ path) = path_split path
    ∧ path_split (canonicalPath path) = path_split path
    ∧ (∀ srv, _getNodeForPath srv (canonicalPath path) = _getNodeForPath srv path)
    ∧ (∀ srv params,
         addMethod srv (canonicalPath path) params = addMethod srv path params)
    ∧ (∀ srv, removeMethod srv (canonicalPath path) = removeMethod srv path).
Proof.
  intros path path'. split_and!.
  - apply path_split_Segment.
  - apply path_split_app.
  - change (path +:+ "/") with (path +:+ "/" +:+ "").
    rewrite path_split_app. apply app_nil_r.
  - change ("/" +:+ path) with ("" +:+ "/" +:+ path).
    by rewrite path_split_app.
  - apply path_split_canonicalPath.
  - intros srv. unfold _getNodeForPath. by rewrite path_split_canonicalPath.
  - intros srv params. unfold addMethod. by rewrite path_split_canonicalPath.
  - intros srv. unfold removeMethod, _getNodeForPath.
    by rewrite path_split_canonicalPath.
Qed.

(** ** The CONTENTS of a served document *)

Section Contents.
Import JsString JsStringFacts.

Lemma JSON_stringify_object props :
  JSON_stringify (JsObject props) = Some (JObject (stringify_members props)).
Proof.
  reflexivity.
Qed.

Lemma members_get_notin k props :
  k ∉ map fst props → members_get k (stringify_members props) = None.
Proof.
  induction props as [| [k' e] props IH]; simpl; [done |].
  intros [Hne Hnotin]%not_elem_of_cons.
  destruct (JSON_stringify e); simpl; [rewrite decide_False by done |]; by apply IH.
Qed.

Lemma members_get_stringify k props :
  NoDup (map fst props) →
  members_get k (stringify_members props) = JSON_stringify (props_get k props).
Proof.
  induction props as [| [k' e] props IH]; simpl; [done |].
  intros [Hnotin Hnodup]%NoDup_cons.
  destruct (JSON_stringify e) as [j |] eqn:He; simpl.
  - destruct (decide (k = k')); [done | by apply IH].
  - destruct (decide (k = k')) as [-> | Hne]; [| by apply IH].
    rewrite He. by apply members_get_notin.
Qed.

Lemma serializedChildren_spec trail node :
  NoDup (map fst (serializedChildren trail node))
  ∧ (∀ k, k ∈ map fst (serializedChildren trail node)
          ↔ is_Some (_children node !! k))
  ∧ ∀ k, props_get k (serializedChildren trail node) =
         match _children node !! k with
         | Some child => serialize ((node, k) :: trail) child
         | None => JsUndefined
         end.
Proof.
  unfold serializedChildren.
  apply (map_fold_weak_ind
    (λ (r : list (string * JsValue)) (m : gmap string OSCNode),
       (NoDup (map fst r)
        ∧ (∀ k, k ∈ map fst r ↔ is_Some (m !! k))
        ∧ ∀ k, props_get k r = match m !! k with
                               | Some child => serialize ((node, k) :: trail) child
                               | None => JsUndefined
                               end))).
  - split_and!; [apply NoDup_nil_2 | | done].
    intros k. rewrite lookup_empty. split; [by intros []%elem_of_nil |].
    by intros [? ?].
  - intros i x m r Hi (Hnodup & Hkeys & Hget). simpl. split_and!.
    + apply NoDup_cons. split; [| done].
      rewrite Hkeys, Hi. by intros [? ?].
    + intros k. rewrite elem_of_cons, Hkeys.
      destruct (decide (k = i)) as [-> | Hne].
      * rewrite lookup_insert_eq. split; [by eexists | by left].
      * rewrite lookup_insert_ne by done. naive_solver.
    + intros k. destruct (decide (k = i)) as [-> | Hne].
      * by rewrite lookup_insert_eq.
      * rewrite lookup_insert_ne by done. apply Hget.
Qed.

Lemma serialize_keys_NoDup trail node : NoDup (js_keys (serialize trail node)).
Proof.
  destruct (serialize_own trail node) as (own & -> & Hnodup & Hown & _).
  simpl. rewrite map_app. apply NoDup_app. split_and!; [done | |].
  - intros k Hk%Hown Hk'. destruct (_args node) as [args |];
      [| by apply elem_of_nil in Hk'].
    apply serialize_args_keys in Hk'. unfold ownKeys in Hk. set_solver.
  - destruct (_args node); [apply serialize_args_NoDup | apply NoDup_nil_2].
Qed.

Lemma serialize_CONTENTS trail node :
  js_get (serialize trail node) "CONTENTS" =
  if 0 <? size (_children node) then JsObject (serializedChildren trail node)
  else JsUndefined.
Proof.
  assert (Hargs : props_get "CONTENTS"
                    (match _args node with
                     | Some args => serialize_args (_access node) args
                     | None => []
                     end) = JsUndefined).
  { apply props_get_notin. destruct (_args node) as [args |];
      [| by apply not_elem_of_nil].
    rewrite serialize_args_keys. naive_solver. }
  unfold serializedChildren. revert Hargs.
  destruct node as [name desc acc tgs crit args children].
  cbn [serialize _args _access _description _tags _critical _children _name js_get].
  generalize (isContainer (mkOSCNode name desc acc tgs crit args children)).
  intros container Hargs.
  rewrite !(assoc_L (++)), props_get_app, Hargs.
  destruct (truthyString desc), acc, container, tgs, crit,
    (0 <? size children); simpl;
    rewrite ?bool_decide_eq_true_2 by set_solver;
    rewrite ?bool_decide_eq_false_2 by set_solver; done.
Qed.

Lemma walk_app components1 : ∀ cur components2,
  walk cur (components1 ++ components2) =
  match walk cur components1 with
  | Some cur' => walk cur' components2
  | None => None
  end.
Proof.
  induction components1 as [| c rest IH]; intros cur components2; simpl; [done |].
  destruct (getChild (focus cur) c); [apply IH | done].
Qed.

Lemma getNodeForPath_child srv pathname node k :
  _getNodeForPath srv pathname = Some node →
  Segment k →
  _getNodeForPath srv (pathname +:+ "/" +:+ k) =
  match _children (focus node) !! k with
  | Some child => Some (mkCursor child ((focus node, k) :: trail node))
  | None => None
  end.
Proof.
  unfold _getNodeForPath. intros Hnode Hk.
  rewrite path_split_app, (path_split_segment k), walk_app, Hnode by done.
  simpl. unfold getChild. by destruct (_children (focus node) !! k).
Qed.

End Contents.

(** X4.  The document served for a node with children has a [CONTENTS]
    object whose keys are exactly the node's child slots, and the member
    under a key is the very document served at the path extended by that
    key. *)
Theorem contents_are_child_documents :
  ∀ (srv : OSCQueryServer) (pathname : string) (node : Cursor),
    _getNodeForPath srv pathname = Some node →
    _children (focus node) ≠ ∅ →
    ∃ document contents,
      body (_handleGet srv pathname "") = Some document
      ∧ json_get document "CONTENTS" = Some contents
      ∧ (∀ k, is_Some (json_get contents k) ↔ is_Some (_children (focus node) !! k))
      ∧ (∀ k, Segment k →
              is_Some (_children (focus node) !! k) →
              statusCode (_handleGet srv (pathname +:+ "/" +:+ k) "") = 200%Z
              ∧ body (_handleGet srv (pathname +:+ "/" +:+ k) "")
                = json_get contents k).
Proof.
  intros srv pathname node Hnode Hchildren.
  rewrite handleGet_no_selector, Hnode. simpl.
  pose proof (serialize_keys_NoDup (trail node) (focus node)) as Hnodup.
  pose proof (serialize_CONTENTS (trail node) (focus node)) as Hcontents.
  destruct (serializedChildren_spec (trail node) (focus node))
    as (Hnodup' & Hkeys & Hget).
  assert (Hsize : (0 <? size (_children (focus node))) = true).
  { apply Nat.ltb_lt. apply map_size_non_empty_iff in Hchildren. lia. }
  rewrite Hsize in Hcontents.
  destruct (serialize (trail node) (focus node)) as [| | | | | | props] eqn:Hser;
    try done.
  simpl in Hnodup, Hcontents.
  exists (JObject (stringify_members props)),
         (JObject (stringify_members (serializedChildren (trail node) (focus node)))).
  split_and!.
  - apply JSON_stringify_object.
  - simpl. rewrite members_get_stringify, Hcontents by done.
    apply JSON_stringify_object.
  - intros k. simpl. rewrite members_get_stringify, Hget by done.
    destruct (_children (focus node) !! k) as [child |]; simpl.
    + split; [by eexists | intros _; apply stringify_serialize_is_Some].
    + split; by intros [? ?].
  - intros k Hk [child Hchild].
    rewrite handleGet_no_selector, (getNodeForPath_child srv pathname node k) by done.
    rewrite Hchild. simpl. split; [done |].
    by rewrite members_get_stringify, Hget, Hchild.
Qed.

(** X4 at [/chatbox] of the sample server, whose only child is [input]. *)
Lemma contents_are_child_documents_witness :
  ∃ node document contents,
    _getNodeForPath sampleServer "/chatbox" = Some node
    ∧ body (_handleGet sampleServer "/chatbox" "") = Some document
    ∧ json_get document "CONTENTS" = Some contents
    ∧ body (_handleGet sampleServer ("/chatbox" +:+ "/" +:+ "input") "")
      = json_get contents "input".
Proof.
  assert (Hnode : ∃ node,
    _getNodeForPath sampleServer "/chatbox" = Some node
    ∧ is_Some (_children (focus node) !! "input")).
  { eexists. split; [vm_compute; reflexivity |]. eexists. vm_compute. reflexivity. }
  destruct Hnode as (node & Hnode & Hchild).
  assert (Hne : _children (focus node) ≠ ∅).
  { intros Hempty. rewrite Hempty, lookup_empty in Hchild. by destruct Hchild. }
  destruct (contents_are_child_documents sampleServer "/chatbox" node Hnode Hne)
    as (document & contents & Hbody & Hcontents & _ & Hmember).
  exists node, document, contents.
  split; [exact Hnode |]. split; [exact Hbody |]. split; [exact Hcontents |].
  apply Hmember; [| exact Hchild].
  split; [discriminate |]. apply JsStringFacts.includes_false_Occurs. reflexivity.
Defined.

(** ** Values: the slots of a node *)

Section ValueSlots.

Lemma OSCNode_setValue_inr node arg_index value node' :
  OSCNode_setValue node arg_index value = inr node'
  ↔ ∃ args arg,
      _args node = Some args
      ∧ (0 <= arg_index)%Z
      ∧ args !! Z.to_nat arg_index = Some arg
      ∧ node' = set_args node (<[Z.to_nat arg_index := set_arg_value arg value]> args).
Proof.
  unfold OSCNode_setValue, arg_at.
  destruct (_args node) as [args |]; [| split; [done | by intros (? & ? & ? & _)]].
  destruct (Z.leb_spec (Z.of_nat (length args)) arg_index) as [Hle | Hlt].
  - split; [done |]. intros (? & arg & ? & ? & Harg%lookup_lt_Some & _).
    simplify_eq. lia.
  - destruct (Z.ltb_spec arg_index 0) as [Hneg | Hpos].
    + split; [done |]. intros (? & ? & ? & ? & _). lia.
    + destruct (args !! Z.to_nat arg_index) as [arg |] eqn:Harg.
      * split.
        -- intros [= <-]. by exists args, arg.
        -- intros (? & ? & ? & _ & ? & ->). by simplify_eq.
      * split; [done |]. intros (? & ? & ? & _ & ? & _). by simplify_eq.
Qed.

Lemma OSCNode_unsetValue_setValue node arg_index :
  OSCNode_unsetValue node arg_index = OSCNode_setValue node arg_index JsUndefined.
Proof. reflexivity. Qed.

Lemma OSCNode_setValue_SlotExists node arg_index value :
  (∃ node', OSCNode_setValue node arg_index value = inr node')
  ↔ SlotExists node arg_index.
Proof.
  split.
  - intros (node' & (args & arg & Hargs & Hpos & Harg%lookup_lt_Some & _)%OSCNode_setValue_inr).
    exists args. split; [done | lia].
  - intros (args & Hargs & Hrange).
    destruct (lookup_lt_is_Some_2 args (Z.to_nat arg_index)) as [arg Harg]; [lia |].
    eexists. apply OSCNode_setValue_inr. exists args, arg. split_and!; [done | lia | done | done].
Qed.

Lemma OSCNode_getValue_set node arg_index value node' :
  OSCNode_setValue node arg_index value = inr node' →
  OSCNode_getValue node' arg_index = inr value
  ∧ (∀ j, j ≠ arg_index → OSCNode_getValue node' j = OSCNode_getValue node j).
Proof.
  intros (args & arg & Hargs & Hpos & Harg & ->)%OSCNode_setValue_inr.
  pose proof (lookup_lt_Some _ _ _ Harg) as Hlt.
  unfold OSCNode_getValue, arg_at. simpl. rewrite Hargs, length_insert. split.
  - destruct (Z.leb_spec (Z.of_nat (length args)) arg_index); [lia |].
    destruct (Z.ltb_spec arg_index 0); [lia |].
    by rewrite list_lookup_insert_eq.
  - intros j Hj.
    destruct (Z.leb_spec (Z.of_nat (length args)) j); [done |].
    destruct (Z.ltb_spec j 0); [done |].
    rewrite list_lookup_insert_ne by lia. done.
Qed.

Lemma OSCNode_setValue_again node arg_index value value' node' :
  OSCNode_setValue node arg_index value = inr node' →
  OSCNode_setValue node' arg_index value' = OSCNode_setValue node arg_index value'.
Proof.
  intros (args & arg & Hargs & Hpos & Harg & ->)%OSCNode_setValue_inr.
  pose proof (lookup_lt_Some _ _ _ Harg) as Hlt.
  unfold OSCNode_setValue, arg_at. simpl. rewrite Hargs, length_insert.
  destruct (Z.leb_spec (Z.of_nat (length args)) arg_index); [lia |].
  destruct (Z.ltb_spec arg_index 0); [lia |].
  rewrite list_lookup_insert_eq, Harg by done.
  unfold set_args. simpl. by rewrite list_insert_insert_eq.
Qed.

Lemma setValueAt_again arg_index value value' node :
  setValueAt arg_index value' (setValueAt arg_index value node)
  = setValueAt arg_index value' node.
Proof.
  unfold setValueAt at 2.
  destruct (OSCNode_setValue node arg_index value) as [err | node'] eqn:Hset; [done |].
  unfold setValueAt.
  rewrite (OSCNode_setValue_again node arg_index value value' node' Hset).
  destruct (OSCNode_setValue node arg_index value') as [err | node''] eqn:Hset';
    [| done].
  assert (Hslot : SlotExists node arg_index).
  { apply (OSCNode_setValue_SlotExists node arg_index value). by eexists. }
  apply (OSCNode_setValue_SlotExists node arg_index value') in Hslot as [? ?].
  congruence.
Qed.

End ValueSlots.


(** ** Values: the server methods *)

Section ServerValues.

Lemma getNode_update_at components f : ∀ node x,
  getNode node components = Some x →
  getNode (update_at components f node) components = Some (f x).
Proof.
  induction components as [| c rest IH]; intros node x Hx;
    cbn [getNode update_at] in *.
  - by simplify_eq.
  - destruct (_children node !! c) as [child |] eqn:Hc; [| done].
    rewrite put_child_lookup. by apply IH.
Qed.

Lemma put_child_put_child node c x y :
  put_child (put_child node c x) c y = put_child node c y.
Proof. unfold put_child, set_children. simpl. by rewrite insert_insert_eq. Qed.

Lemma update_at_update_at components f g : ∀ node,
  update_at components g (update_at components f node)
  = update_at components (g ∘ f) node.
Proof.
  induction components as [| c rest IH]; intros node; cbn [update_at]; [done |].
  destruct (_children node !! c) as [child |] eqn:Hc.
  - by rewrite put_child_lookup, IH, put_child_put_child.
  - by rewrite Hc.
Qed.

Lemma update_at_ext components f g : ∀ node,
  (∀ x, getNode node components = Some x → f x = g x) →
  update_at components f node = update_at components g node.
Proof.
  induction components as [| c rest IH]; intros node Hfg; cbn [update_at].
  - by apply Hfg.
  - destruct (_children node !! c) as [child |] eqn:Hc; [| done].
    f_equal. apply IH. intros x Hx. apply Hfg. cbn [getNode]. by rewrite Hc.
Qed.

Lemma setValue_Returned srv path arg_index value node node' :
  _getNodeForPath srv path = Some node →
  OSCNode_setValue (focus node) arg_index value = inr node' →
  setValue srv path arg_index value =
  Returned (mkOSCQueryServer (_opts srv)
              (update_at (path_split path) (setValueAt arg_index value) (_root srv))).
Proof.
  intros Hnode Hset. unfold setValue. rewrite Hnode, Hset. do 2 f_equal.
  pose proof (walk_root_of (root_cursor srv) (path_split path) node
                (setValueAt arg_index value) Hnode) as Hroot.
  simpl in Hroot. rewrite <- Hroot. unfold setValueAt. by rewrite Hset.
Qed.

Lemma setValue_resolves srv path arg_index value node node' :
  _getNodeForPath srv path = Some node →
  OSCNode_setValue (focus node) arg_index value = inr node' →
  ∃ srv' cur,
    setValue srv path arg_index value = Returned srv'
    ∧ _opts srv' = _opts srv
    ∧ _root srv' = update_at (path_split path) (setValueAt arg_index value) (_root srv)
    ∧ _getNodeForPath srv' path = Some cur
    ∧ focus cur = node'.
Proof.
  intros Hnode Hset. eexists.
  destruct (getNode_getNodeForPath
              (mkOSCQueryServer (_opts srv)
                 (update_at (path_split path) (setValueAt arg_index value) (_root srv)))
              path node') as (cur & Hcur & Hfocus).
  { simpl. apply getNodeForPath_getNode in Hnode.
    rewrite (getNode_update_at _ _ _ _ Hnode). unfold setValueAt. by rewrite Hset. }
  exists cur. split; [by eapply setValue_Returned |]. by split_and!.
Qed.

Lemma setValue_setValue srv path arg_index value value' :
  setValue (state_of (setValue srv path arg_index value)) path arg_index value'
  = setValue srv path arg_index value'.
Proof.
  destruct (_getNodeForPath srv path) as [node |] eqn:Hnode;
    [| by unfold setValue; rewrite Hnode; simpl; rewrite Hnode].
  destruct (OSCNode_setValue (focus node) arg_index value) as [err | node'] eqn:Hset;
    [by unfold setValue at 2; rewrite Hnode, Hset |].
  destruct (setValue_resolves _ _ _ _ _ _ Hnode Hset)
    as (srv' & cur & -> & Hopts & Hroot & Hcur & Hfocus).
  simpl.
  assert (Hslot : SlotExists (focus node) arg_index).
  { apply (OSCNode_setValue_SlotExists _ _ value). by eexists. }
  apply (OSCNode_setValue_SlotExists _ _ value') in Hslot as [node'' Hset'].
  rewrite (setValue_Returned srv path arg_index value' node node'' Hnode Hset').
  assert (Hset'' : OSCNode_setValue (focus cur) arg_index value' = inr node'').
  { rewrite Hfocus, (OSCNode_setValue_again _ _ _ _ _ Hset). done. }
  rewrite (setValue_Returned srv' path arg_index value' cur node'' Hcur Hset'').
  rewrite Hopts, Hroot, update_at_update_at. do 2 f_equal.
  apply update_at_ext. intros x _. apply setValueAt_again.
Qed.

End ServerValues.

(** X6.  On the server, the last write to a slot wins, and it also decides
    the outcome: [setValue(path, i, w)] after [setValue(path, i, v)]
    returns or throws as it would have without the first call and leaves
    the same server; the same for [unsetValue(path, i)] after
    [setValue(path, i, v)]. *)
Theorem setValue_last_write_wins :
  ∀ (srv : OSCQueryServer) (path : string) (arg_index : Z) (v w : JsValue),
    setValue (state_of (setValue srv path arg_index v)) path arg_index w
    = setValue srv path arg_index w
    ∧ unsetValue (state_of (setValue srv path arg_index v)) path arg_index
      = unsetValue srv path arg_index.
Proof.
  intros srv path arg_index v w. split.
  - apply setValue_setValue.
  - change (unsetValue ?s ?p ?i) with (setValue s p i JsUndefined).
    apply setValue_setValue.
Qed.



(** ** How [addMethod] and [removeMethod] compose *)

Section TreeOperations.

Lemma addMethod_upsert_at srv path params :
  addMethod srv path params =
  mkOSCQueryServer (_opts srv)
    (upsert_at (path_split path) (λ node, setOpts node params) (_root srv)).
Proof.
  rewrite <- addMethod_root. reflexivity.
Qed.

Lemma upsert_at_ext components f g : ∀ node,
  (∀ x, f x = g x) → upsert_at components f node = upsert_at components g node.
Proof.
  induction components as [| c rest IH]; intros node Hfg; cbn [upsert_at].
  - apply Hfg.
  - f_equal. by apply IH.
Qed.

Lemma upsert_at_upsert_at components f g : ∀ node,
  upsert_at components g (upsert_at components f node)
  = upsert_at components (g ∘ f) node.
Proof.
  induction components as [| c rest IH]; intros node; cbn [upsert_at]; [done |].
  by rewrite put_child_lookup, put_child_put_child, <- IH.
Qed.

Lemma put_child_commute node c c' x y :
  c ≠ c' →
  put_child (put_child node c x) c' y = put_child (put_child node c' y) c x.
Proof.
  intros Hne. unfold put_child, set_children. simpl.
  by rewrite insert_insert_ne.
Qed.

Lemma upsert_at_commute params params' components : ∀ components' node,
  components ≠ components' →
  upsert_at components' (λ x, setOpts x params')
    (upsert_at components (λ x, setOpts x params) node)
  = upsert_at components (λ x, setOpts x params)
      (upsert_at components' (λ x, setOpts x params') node).
Proof.
  induction components as [| c rest IH]; intros [| c' rest'] node Hne;
    cbn [upsert_at]; [done | done | done |].
  destruct (decide (c = c')) as [<- | Hc].
  - rewrite !put_child_lookup, !put_child_put_child. f_equal.
    apply IH. congruence.
  - rewrite !put_child_lookup_ne by done.
    by rewrite put_child_commute.
Qed.

(** A node that was there is there after an insertion. *)
Lemma upsert_at_frame components f :
  (∀ x, _children (f x) = _children x) →
  ∀ node components' x,
    getNode node components' = Some x →
    ∃ x', getNode (upsert_at components f node) components' = Some x'
          ∧ (¬ components' `prefix_of` components → x' = x)
          ∧ (components' ≠ components → metadata x' = metadata x).
Proof.
  intros Hf. induction components as [| c rest IH];
    intros node [| c' rest'] x Hx; cbn [upsert_at getNode] in *.
  - exists (f node). split_and!; [done | | done].
    intros []. done.
  - rewrite Hf. exists x. by split_and!.
  - simplify_eq. eexists. split_and!; [done | | done].
    intros []. apply prefix_nil.
  - destruct (_children node !! c') as [child |] eqn:Hchild; [| done].
    destruct (decide (c = c')) as [-> | Hc].
    + rewrite put_child_lookup, Hchild. simpl.
      destruct (IH child rest' x Hx) as (x' & Hx' & Hsame & Hmeta).
      exists x'. split_and!; [done | |].
      * intros Hprefix. apply Hsame. intros ?. apply Hprefix. by apply prefix_cons.
      * intros Hne. apply Hmeta. congruence.
    + rewrite put_child_lookup_ne, Hchild by done. exists x. by split_and!.
Qed.

(** Inserting a path that does not resolve, then removing it. *)
Lemma prune_upsert_at_new f rest : ∀ name,
  (∀ x, setOpts (f x) emptyDescription = setOpts x emptyDescription) →
  prune rest (upsert_at rest f (new_OSCNode name)) = new_OSCNode name.
Proof.
  intros name Hf. revert name.
  induction rest as [| c rest IH]; intros name; cbn [prune upsert_at].
  - by rewrite Hf.
  - assert (Hnew : _children (new_OSCNode name) !! c = None) by apply lookup_empty.
    rewrite put_child_lookup, Hnew. cbn [from_option id]. rewrite IH.
    change (isEmpty (new_OSCNode c)) with true. cbn [_name new_OSCNode].
    unfold removeChild, hasChild, put_child, set_children. simpl.
    rewrite lookup_insert_eq.
    rewrite bool_decide_eq_true_2 by by eexists.
    simpl. by rewrite !insert_insert_eq, delete_insert_eq, delete_empty.
Qed.

Lemma set_children_same node : set_children node (_children node) = node.
Proof. by destruct node. Qed.

Lemma prune_upsert_at f components :
  (∀ x, setOpts (f x) emptyDescription = setOpts x emptyDescription) →
  ∀ node,
    getNode node components = None →
    (∀ k x, 0 < k → getNode node (take k components) = Some x → isEmpty x = false) →
    prune components (upsert_at components f node) = node.
Proof.
  intros Hf. induction components as [| c rest IH]; intros node Hnone Hkept;
    cbn [prune upsert_at getNode] in *; [done |].
  rewrite put_child_lookup.
  destruct (_children node !! c) as [child |] eqn:Hchild; cbn [from_option id].
  - rewrite IH; [| done |].
    + rewrite (Hkept 1 child); [| lia | by cbn [take getNode]; rewrite Hchild].
      rewrite put_child_put_child. unfold put_child.
      by rewrite insert_id, set_children_same.
    + intros k x Hk Hx. apply (Hkept (S k)); [lia |].
      cbn [take getNode]. by rewrite Hchild.
  - rewrite prune_upsert_at_new by done.
    change (isEmpty (new_OSCNode c)) with true. cbn [_name new_OSCNode].
    unfold removeChild, hasChild, put_child, set_children. simpl.
    rewrite lookup_insert_eq. rewrite bool_decide_eq_true_2 by by eexists.
    simpl. rewrite !insert_insert_eq, delete_insert_eq, delete_id by done.
    by destruct node.
Qed.

(** What [removeMethod] leaves untouched. *)
Lemma prune_frame components : ∀ node components' x,
  well_named node →
  getNode node components' = Some x →
  ¬ components' `prefix_of` components →
  getNode (prune components node) components' = Some x.
Proof.
  induction components as [| c rest IH]; intros node [| c' rest'] x Hwf Hx Hprefix.
  - destruct Hprefix. done.
  - done.
  - destruct Hprefix. apply prefix_nil.
  - destruct (_children node !! c) as [child |] eqn:Hchild;
      [| by cbn [prune]; rewrite Hchild].
    destruct (prune_cons c rest node child Hwf Hchild) as [_ Hchildren].
    cbn [getNode] in *. rewrite Hchildren.
    destruct (decide (c = c')) as [<- | Hc].
    + rewrite Hchild in Hx.
      assert (Hx' : getNode (prune rest child) rest' = Some x).
      { apply IH; [by eapply well_named_child | done |].
        intros ?. apply Hprefix. by apply prefix_cons. }
      assert (Hne : isEmpty (prune rest child) = false).
      { destruct (isEmpty (prune rest child)) eqn:Hempty; [| done].
        apply isEmpty_spec in Hempty as [_ Hempty].
        destruct rest' as [| c'' rest'']; [destruct Hprefix; by apply prefix_cons, prefix_nil |].
        cbn [getNode] in Hx'. by rewrite Hempty, lookup_empty in Hx'. }
      by rewrite Hne, lookup_insert_eq.
    + destruct (isEmpty (prune rest child)).
      * by rewrite lookup_delete_ne.
      * by rewrite lookup_insert_ne.
Qed.

End TreeOperations.

Section TreeOperationsServer.

Lemma removeMethod_prune srv path node :
  _getNodeForPath srv path = Some node →
  removeMethod srv path =
  mkOSCQueryServer (_opts srv) (prune (path_split path) (_root srv)).
Proof.
  intros Hnode. rewrite <- (removeMethod_root srv path node Hnode).
  unfold removeMethod. by rewrite Hnode.
Qed.


End TreeOperationsServer.

(** X8.  [addMethod] removes nothing and touches no other method: a path
    that resolved still resolves afterwards; its node is the same node,
    subtree included, unless it lies on the way from the root to the
    added path, and even then it keeps its name, description, access,
    tags, critical flag and arguments unless it is the added path itself. *)
Theorem addMethod_keeps_other_nodes :
  ∀ (srv : OSCQueryServer) (path : string) (params : MethodDescription)
    (path' : string) (node : Cursor),
    _getNodeForPath srv path' = Some node →
    ∃ node',
      _getNodeForPath (addMethod srv path params) path' = Some node'
      ∧ (¬ path_split path' `prefix_of` path_split path → focus node' = focus node)
      ∧ (path_split path' ≠ path_split path →
         metadata (focus node') = metadata (focus node)).
Proof.
  intros srv path params path' node Hnode.
  apply getNodeForPath_getNode in Hnode.
  destruct (upsert_at_frame (path_split path) (λ x, setOpts x params)
              ltac:(done) (_root srv) (path_split path') (focus node) Hnode)
    as (x' & Hx' & Hsame & Hmeta).
  rewrite <- addMethod_root in Hx'.
  apply getNode_getNodeForPath in Hx' as (node' & Hnode' & <-).
  by exists node'.
Qed.

(** X8 on the sample server: adding [/chatbox/typing] leaves
    [/chatbox/input] as it is. *)
Lemma addMethod_keeps_other_nodes_witness :
  ∃ node node',
    _getNodeForPath sampleServer "/chatbox/input" = Some node
    ∧ _getNodeForPath (addMethod sampleServer "/chatbox/typing" volume)
        "/chatbox/input" = Some node'
    ∧ focus node' = focus node.
Proof.
  assert (Hnode : ∃ node, _getNodeForPath sampleServer "/chatbox/input" = Some node).
  { eexists. vm_compute. reflexivity. }
  destruct Hnode as (node & Hnode).
  destruct (addMethod_keeps_other_nodes sampleServer "/chatbox/typing" volume
              "/chatbox/input" node Hnode) as (node' & Hnode' & Hsame & _).
  exists node, node'. split; [exact Hnode |]. split; [exact Hnode' |].
  apply Hsame. apply (bool_decide_unpack _). vm_compute. exact I.
Defined.

(** X9.  Calls of [addMethod] compose: on one path the last description
    wins, as if the earlier call had not been made; on two paths with
    different components the order of the calls does not matter. *)
Theorem addMethod_composition :
  ∀ (srv : OSCQueryServer) (path path' : string) (params params' : MethodDescription),
    addMethod (addMethod srv path params) path params' = addMethod srv path params'
    ∧ (path_split path ≠ path_split path' →
       addMethod (addMethod srv path params) path' params'
       = addMethod (addMethod srv path' params') path params).
Proof.
  intros srv path path' params params'. rewrite !addMethod_upsert_at. simpl. split.
  - f_equal. rewrite upsert_at_upsert_at. by apply upsert_at_ext.
  - intros Hne. f_equal. by apply upsert_at_commute.
Qed.





(** X12.  In a tree where every node is stored under its own name,
    [removeMethod] changes nothing off the way from the root to the
    removed path: a node whose path is not a prefix of that path stays
    where it is, with its metadata, its values and its subtree. *)
Theorem removeMethod_keeps_other_nodes :
  ∀ (srv : OSCQueryServer) (path path' : string) (node : Cursor),
    well_named (_root srv) →
    _getNodeForPath srv path' = Some node →
    ¬ path_split path' `prefix_of` path_split path →
    ∃ node',
      _getNodeForPath (removeMethod srv path) path' = Some node'
      ∧ focus node' = focus node.
Proof.
  intros srv path path' node Hwf Hnode Hprefix.
  destruct (_getNodeForPath srv path) as [target |] eqn:Htarget.
  - rewrite (removeMethod_prune _ _ _ Htarget).
    apply getNode_getNodeForPath. simpl.
    apply prune_frame; [done | by apply getNodeForPath_getNode | done].
  - unfold removeMethod. rewrite Htarget. by exists node.
Qed.

(** X12 on the sample server: removing [/audio/volume] leaves
    [/chatbox/input] as it is. *)
Lemma removeMethod_keeps_other_nodes_witness :
  ∃ node node',
    _getNodeForPath sampleServer "/chatbox/input" = Some node
    ∧ _getNodeForPath (removeMethod sampleServer "/audio/volume") "/chatbox/input"
      = Some node'
    ∧ focus node' = focus node.
Proof.
  assert (Hnode : ∃ node, _getNodeForPath sampleServer "/chatbox/input" = Some node).
  { eexists. vm_compute. reflexivity. }
  destruct Hnode as (node & Hnode).
  destruct (removeMethod_keeps_other_nodes sampleServer "/audio/volume"
              "/chatbox/input" node well_named_sampleServer Hnode)
    as (node' & Hnode' & Hsame).
  { apply (bool_decide_unpack _). vm_compute. exact I. }
  exists node, node'. split; [exact Hnode |]. split; [exact Hnode' |]. exact Hsame.
Defined.


(** ** The subscription filter: patterns at the edges of the grammar *)

Section FilterEdges.
Import JsString JsStringFacts.

Lemma endsWith_app s t suf :
  String.length suf ≤ String.length t →
  endsWith (s +:+ t) suf = endsWith t suf.
Proof.
  intros Hlen. induction s as [| c s IH]; [by rewrite app_nil_l |].
  rewrite app_cons. cbn [endsWith]. rewrite IH.
  rewrite bool_decide_eq_false_2; [done |].
  intros Heq. apply (f_equal String.length) in Heq.
  simpl in Heq. rewrite app_length in Heq. lia.
Qed.

Lemma Occurs_empty s : Occurs "" s.
Proof. by exists "", s. Qed.

Lemma negativeTest_without_token address pattern :
  ¬ Occurs negativeToken pattern → negativeTest address pattern = false.
Proof.
  intros Hocc. destruct (negativeTest address pattern) eqn:Htest; [| done].
  apply negativeTest_MatchesNegative in Htest as (l & r & _ & Hfirst & _).
  by apply FirstOccurrence_Occurs in Hfirst.
Qed.

Lemma replace_unfold s pattern replacement :
  replace s pattern replacement =
  if startsWith s pattern then replacement +:+ drop (String.length pattern) s
  else match s with
       | EmptyString => EmptyString
       | String c s' => String c (replace s' pattern replacement)
       end.
Proof. by destruct s. Qed.

Lemma replace_prefix pattern rest : replace (pattern +:+ rest) pattern "" = rest.
Proof. by rewrite replace_unfold, startsWith_app, drop_app, app_nil_l. Qed.

(** An address cannot start with two texts neither of which starts with
    the other. *)
Lemma startsWith_exclusive address pre : ∀ pre',
  startsWith pre pre' = false →
  startsWith pre' pre = false →
  startsWith address pre = true →
  startsWith address pre' = false.
Proof.
  revert address. induction pre as [| c pre IH]; intros address pre' H1 H2 H3.
  - by destruct pre'.
  - destruct pre' as [| c' pre']; [done |].
    destruct address as [| d address]; [done |].
    cbn [startsWith] in *.
    destruct (decide (c = d)) as [-> | ?]; [| done].
    destruct (decide (c' = d)) as [-> | ?]; [| done].
    rewrite decide_True in H2 by done. by apply IH.
Qed.

End FilterEdges.

(** X14.  A pattern without the token ["(!?"] matches by equality or by
    its final star only: if it does not end in ["*"] it matches exactly
    the address equal to it; if it is a prefix followed by ["*"] it matches
    exactly the addresses that start with that prefix. *)
Theorem pathMatches_without_token :
  ∀ (address pattern : string),
    ¬ Occurs negativeToken pattern →
    (¬ Suffix "*" pattern → (pathMatches address pattern = true ↔ address = pattern))
    ∧ (∀ prefix, pattern = prefix +:+ "*" →
                 (pathMatches address pattern = true ↔ Prefix prefix address)).
Proof.
  intros address pattern Htoken.
  rewrite pathMatches_unfold, (negativeTest_without_token _ _ Htoken).
  rewrite orb_false_r. split.
  - intros Hstar.
    destruct (JsString.endsWith pattern "*") eqn:Hends.
    + by apply JsStringFacts.endsWith_Suffix in Hends.
    + rewrite orb_false_r, bool_decide_eq_true. naive_solver.
  - intros prefix ->.
    rewrite JsStringFacts.slice_0_minus1_app.
    assert (Hends : JsString.endsWith (prefix +:+ "*") "*" = true).
    { apply JsStringFacts.endsWith_Suffix. by exists prefix. }
    rewrite Hends. cbn [andb].
    rewrite orb_true_iff, bool_decide_eq_true, JsStringFacts.startsWith_Prefix.
    split; [| by right]. intros [<- | ?]; [by exists "*" | done].
Qed.

(** X14 on the pattern [/avatar/*]. *)
Lemma pathMatches_without_token_witness :
  ¬ Occurs negativeToken "/avatar/*"
  ∧ (pathMatches "/avatar/parameters/VRCEmote" ("/avatar/" +:+ "*") = true
     ↔ Prefix "/avatar/" "/avatar/parameters/VRCEmote").
Proof.
  assert (Htoken : ¬ Occurs negativeToken "/avatar/*").
  { apply JsStringFacts.includes_false_Occurs. reflexivity. }
  split; [exact Htoken |].
  exact (proj2 (pathMatches_without_token "/avatar/parameters/VRCEmote" "/avatar/*"
                  Htoken) "/avatar/" eq_refl).
Defined.

(** X15.  An empty exclusion excludes everything: when the first ["(!?"]
    of a pattern is followed by nothing, or by [")"] alone, the text to
    exclude is empty, every address contains it, and the pattern matches
    only the address equal to it. *)
Theorem pathMatches_empty_exclusion :
  ∀ (address pattern base rest : string),
    FirstOccurrence negativeToken pattern base rest →
    rest = "" ∨ rest = ")" →
    (pathMatches address pattern = true ↔ address = pattern).
Proof.
  intros address pattern base rest Hfirst Hrest.
  rewrite pathMatches_PatternMatches. split; [| by intros ->; left].
  intros [Hexact | [(prefix & Hpattern & _) | Hnegative]]; [done | |]; exfalso.
  - assert (Hends : JsString.endsWith pattern "*" = true).
    { apply JsStringFacts.endsWith_Suffix. by exists prefix. }
    destruct Hfirst as [-> _].
    rewrite endsWith_app in Hends; [| destruct Hrest as [-> | ->]; simpl; lia].
    by destruct Hrest as [-> | ->].
  - destruct Hnegative as (base' & rest' & excl & Hfirst' & Hexcl & _ & Hocc).
    apply JsStringFacts.FirstOccurrence_find_first in Hfirst, Hfirst'.
    assert (rest' = rest) as -> by congruence.
    apply ExcludeString_replace in Hexcl.
    assert (excl = "") as -> by by destruct Hrest as [-> | ->].
    apply Hocc, Occurs_empty.
Qed.

(** X15 on the pattern [/avatar/(!?)]. *)
Lemma pathMatches_empty_exclusion_witness :
  FirstOccurrence negativeToken "/avatar/(!?)" "/avatar/" ")"
  ∧ (pathMatches "/avatar/parameters/VRCEmote" "/avatar/(!?)" = true
     ↔ "/avatar/parameters/VRCEmote" = "/avatar/(!?)").
Proof.
  assert (Hfirst : FirstOccurrence negativeToken "/avatar/(!?)" "/avatar/" ")").
  { apply JsStringFacts.find_first_Some. reflexivity. }
  split; [exact Hfirst |].
  exact (pathMatches_empty_exclusion "/avatar/parameters/VRCEmote" "/avatar/(!?)"
           "/avatar/" ")" Hfirst (or_intror eq_refl)).
Defined.

(** X16.  Subscriptions on a filter reached from a new one by any calls
    of [subscribe], [unsubscribe] and [subscribeToAllPaths]: subscribing
    twice is subscribing once; after [subscribe(p)] an address is accepted
    iff it matches [p] or a pattern subscribed before (accept-all is off,
    whatever it was); unsubscribing twice is unsubscribing once;
    [unsubscribe(p)] right after [subscribe(p)] of a pattern that was not
    subscribed gives back the filter as it was; [subscribeToAllPaths]
    gives back the new filter. *)
Theorem subscription_algebra :
  ∀ (ops : list FilterOp) (path : string),
    let f := run_ops ops new_VRChatOSCQuery in
    subscribe (subscribe f path) path = subscribe f path
    ∧ (∀ address,
         shouldProcessMessage (subscribe f path) address = true
         ↔ pathMatches address path = true
           ∨ ∃ pattern, pattern ∈ subscribedPaths f
                        ∧ pathMatches address pattern = true)
    ∧ unsubscribe (unsubscribe f path) path = unsubscribe f path
    ∧ (path ∉ subscribedPaths f → unsubscribe (subscribe f path) path = f)
    ∧ subscribeToAllPaths f = new_VRChatOSCQuery.
Proof.
  intros ops path f.
  assert (Hinv : accept_all_iff_empty f).
  { apply run_ops_accept_all_iff_empty, new_accept_all_iff_empty. }
  clearbody f. destruct f as [paths all]. unfold accept_all_iff_empty in Hinv.
  simpl in *. split_and!.
  - unfold subscribe. simpl. f_equal. set_solver.
  - intros address. rewrite shouldProcessMessage_exists. simpl. split.
    + intros [? | (pattern & [->%elem_of_singleton | Hin]%elem_of_union & Hmatch)];
        [done | by left | right; by exists pattern].
    + intros [Hmatch | (pattern & Hin & Hmatch)]; right.
      * exists path. split; [set_solver | done].
      * exists pattern. split; [set_solver | done].
  - unfold unsubscribe. simpl.
    assert (Hsame : paths ∖ {[path]} ∖ {[path]} = paths ∖ {[path]}) by set_solver.
    rewrite Hsame. f_equal. by destruct (size (paths ∖ {[path]}) =? 0).
  - intros Hnotin. unfold unsubscribe. simpl.
    assert (Hsame : ({[path]} ∪ paths) ∖ {[path]} = paths) by set_solver.
    rewrite Hsame. f_equal.
    destruct (size paths =? 0) eqn:Hsize.
    + apply Nat.eqb_eq, size_empty_iff, leibniz_equiv in Hsize.
      symmetry. by apply Hinv.
    + destruct all; [| done].
      rewrite (proj1 Hinv eq_refl), size_empty in Hsize. done.
  - done.
Qed.

(** X17.  The routing of a received message.  A message the filter
    rejects reaches no handler.  An accepted one goes to the avatar
    parameter handler iff its address starts with [/avatar/parameters/],
    to the chatbox handler iff it starts with [/chatbox/], to the input
    handler iff it starts with [/input/], and to none otherwise; the
    parameter name the first handler extracts is the address without
    that prefix. *)
Theorem message_routing :
  ∀ (f : VRChatOSCQuery) (address : string),
    (shouldProcessMessage f address = false → onMessage f address = None)
    ∧ (shouldProcessMessage f address = true →
       onMessage f address = Some (handleOSCMessage address))
    ∧ (handleOSCMessage address = Some HandleAvatarParameter
       ↔ Prefix "/avatar/parameters/" address)
    ∧ (handleOSCMessage address = Some HandleChatbox ↔ Prefix "/chatbox/" address)
    ∧ (handleOSCMessage address = Some HandleInput ↔ Prefix "/input/" address)
    ∧ (∀ name, address = "/avatar/parameters/" +:+ name → paramName address = name).
Proof.
  intros f address.
  pose proof (startsWith_exclusive address) as Hexcl.
  unfold onMessage, handleOSCMessage. split_and!.
  - by intros ->.
  - by intros ->.
  - rewrite <- JsStringFacts.startsWith_Prefix.
    destruct (JsString.startsWith address "/avatar/parameters/"); [done |].
    split; [| done].
    by destruct (JsString.startsWith address "/chatbox/"),
      (JsString.startsWith address "/input/").
  - rewrite <- JsStringFacts.startsWith_Prefix.
    destruct (JsString.startsWith address "/avatar/parameters/") eqn:Havatar.
    + rewrite (Hexcl "/avatar/parameters/" "/chatbox/") by done.
      done.
    + destruct (JsString.startsWith address "/chatbox/"),
        (JsString.startsWith address "/input/"); naive_solver.
  - rewrite <- JsStringFacts.startsWith_Prefix.
    destruct (JsString.startsWith address "/avatar/parameters/") eqn:Havatar.
    + rewrite (Hexcl "/avatar/parameters/" "/input/") by done.
      done.
    + destruct (JsString.startsWith address "/chatbox/") eqn:Hchatbox.
      * rewrite (Hexcl "/chatbox/" "/input/") by done. done.
      * destruct (JsString.startsWith address "/input/"); naive_solver.
  - intros name ->. apply replace_prefix.
Qed.

(** ** The child slots of a node *)

Section ChildSlots.

Lemma hasChild_getChild node path :
  hasChild node path = true ↔ is_Some (getChild node path).
Proof. unfold hasChild, getChild. apply bool_decide_eq_true. Qed.

Lemma hasChild_false node path :
  hasChild node path = false ↔ getChild node path = None.
Proof.
  unfold hasChild, getChild. rewrite bool_decide_eq_false.
  by rewrite eq_None_not_Some.
Qed.

Lemma removeChild_put_child node path child :
  getChild node path = None → removeChild (put_child node path child) path = node.
Proof.
  unfold getChild. intros Hnone.
  unfold removeChild, hasChild, put_child, set_children. simpl.
  rewrite lookup_insert_eq, bool_decide_eq_true_2 by by eexists.
  simpl. rewrite delete_insert_eq, delete_id by done. by destruct node.
Qed.

End ChildSlots.


(** ** What [start] returns *)

(** X19.  [start()] leaves the address space alone and changes the
    options only by recording the port it was given when no HTTP port is
    configured; a configured port is kept, so that a second [start] finds
    the same port.  The host information it returns agrees, field by
    field, with what [HOST_INFO] serves afterwards, and the advertised OSC
    port is the configured OSC port, else the HTTP port. *)
Theorem start_host_info :
  ∀ (srv : OSCQueryServer) (freePort : Z),
    let started := (start srv freePort).1 in
    let info := (start srv freePort).2 in
    let served := hostInfo (_opts started) in
    _root started = _root srv
    ∧ (truthyNumber (httpPort (_opts srv)) = true → _opts started = _opts srv)
    ∧ (truthyNumber (httpPort (_opts srv)) = false →
       _opts started = set_httpPort (_opts srv) freePort)
    ∧ (freePort ≠ 0%Z → ∀ freePort', start started freePort' = (started, info))
    ∧ js_get info "name" = js_get served "NAME"
    ∧ js_get info "extensions" = js_get served "EXTENSIONS"
    ∧ js_get info "oscIp" = js_get served "OSC_IP"
    ∧ js_get info "oscPort" = js_get served "OSC_PORT"
    ∧ js_get info "oscTransport" = js_get served "OSC_TRANSPORT"
    ∧ js_get info "oscPort"
      = jsOfNumber (orNumber (oscPort (_opts srv)) (httpPort (_opts started))).
Proof.
  intros srv freePort started info served. subst started info served.
  unfold start.
  destruct (truthyNumber (httpPort (_opts srv))) eqn:Hport; cbn [negb fst snd _root _opts].
  - split_and!; try done. intros _ freePort'. unfold start. simpl.
    by rewrite Hport.
  - split_and!; try done. intros Hfree freePort'. unfold start.
    cbn [_opts httpPort set_httpPort].
    assert (Hset : truthyNumber (Some freePort) = true).
    { simpl. by apply negb_true_iff, Z.eqb_neq. }
    by rewrite Hset.
Qed.

(** ** Per-argument lists and attribute selection *)

Section Projection.

Lemma serialize_args_get access args :
  props_get "RANGE" (serialize_args access args)
  = (if allNull (map arg_range args) then JsUndefined
     else JsArray (map (λ arg, nullable serializeRange (arg_range arg)) args))
  ∧ props_get "CLIPMODE" (serialize_args access args)
    = (if allNull (map arg_clipmode args) then JsUndefined
       else JsArray (map (λ arg, nullable JsString (arg_clipmode arg)) args)).
Proof.
  unfold serialize_args.
  destruct (allNull (map arg_range args)), (allNull (map arg_clipmode args)),
    (allNull (map (λ arg, coalesceNull (arg_value arg)) args));
    destruct access as [a |]; simpl;
    try destruct ((a =? 1)%Z || (a =? 3)%Z); simpl; by rewrite ?map_map.
Qed.

Lemma serialize_get_args trail node args k :
  _args node = Some args →
  k ∉ ownKeys →
  js_get (serialize trail node) k = props_get k (serialize_args (_access node) args).
Proof.
  intros Hargs Hk.
  destruct (serialize_own trail node) as (own & -> & _ & Hown & _).
  simpl. rewrite props_get_app, Hargs.
  rewrite bool_decide_eq_false_2; [done |]. intros Hin. by apply Hk, Hown.
Qed.

End Projection.

(** X20.  The per-argument lists of a serialized node are aligned with
    the arguments: when [RANGE], [CLIPMODE] or [VALUE] is present it is a
    list with one entry per argument, in order, the entry of an argument
    being its serialized range, its clip mode or its value, and [null]
    when the argument has none. *)
Theorem argument_lists_aligned :
  ∀ (trail : list (OSCNode * string)) (node : OSCNode) (args : list Argument),
    _args node = Some args →
    let result := serialize trail node in
    (js_has result "RANGE" = true →
     js_get result "RANGE"
     = JsArray (map (λ arg, nullable serializeRange (arg_range arg)) args))
    ∧ (js_has result "CLIPMODE" = true →
       js_get result "CLIPMODE"
       = JsArray (map (λ arg, nullable JsString (arg_clipmode arg)) args))
    ∧ (js_has result "VALUE" = true →
       js_get result "VALUE" = JsArray (map valueEntry args)).
Proof.
  intros trail node args Hargs result. subst result.
  destruct (serialize_args_get (_access node) args) as [Hrange Hclipmode].
  split_and!.
  - intros Hhas. apply js_has_serialize in Hhas as (args' & Hargs' & Hkey);
      [| intros Hk; key_absent Hk].
    assert (args' = args) as -> by congruence.
    apply serialize_args_keys in Hkey as [? | [[_ Hnull] | [[? _] | [? _]]]];
      try done.
    rewrite (serialize_get_args trail node args) by (done || intros Hk; key_absent Hk).
    by rewrite Hrange, Hnull.
  - intros Hhas. apply js_has_serialize in Hhas as (args' & Hargs' & Hkey);
      [| intros Hk; key_absent Hk].
    assert (args' = args) as -> by congruence.
    apply serialize_args_keys in Hkey as [? | [[? _] | [[_ Hnull] | [? _]]]];
      try done.
    rewrite (serialize_get_args trail node args) by (done || intros Hk; key_absent Hk).
    by rewrite Hclipmode, Hnull.
  - intros Hhas. apply serialize_VALUE in Hhas as (args' & Hargs' & ->).
    congruence.
Qed.

(** X20 on the readable sample method, whose only argument has a range. *)
Lemma argument_lists_aligned_witness :
  let node := setOpts (new_OSCNode "volume") volume in
  let args := default [] (arguments volume) in
  _args node = Some args
  ∧ js_get (serialize [] node) "RANGE"
    = JsArray (map (λ arg, nullable serializeRange (arg_range arg)) args).
Proof.
  split; [reflexivity |].
  apply (argument_lists_aligned [] (setOpts (new_OSCNode "volume") volume)
           (default [] (arguments volume)) eq_refl).
  vm_compute. reflexivity.
Defined.

(** X21.  Selecting an attribute is projecting the full document: for a
    selector other than [HOST_INFO] on a path that resolves, unless the
    answer is the 204 of an unreadable [VALUE], the GET with the selector
    answers 200 with the object that has the selected member of the
    document served without selector, and no member when that document
    has none of this name.  A selector that is empty (["?"] alone) counts
    as no selector. *)
Theorem selector_is_projection :
  ∀ (srv : OSCQueryServer) (pathname q : string) (node : Cursor),
    q ∈ VALID_ATTRIBUTES →
    q ≠ "HOST_INFO" →
    _getNodeForPath srv pathname = Some node →
    ¬ (q = "VALUE" ∧ unreadable (focus node) = true) →
    ∃ document,
      _handleGet srv pathname "" = jsonResponse document
      ∧ _handleGet srv pathname "?" = jsonResponse document
      ∧ _handleGet srv pathname ("?" +:+ q) =
        jsonResponse
          (JObject match json_get document q with
                   | Some member => [(q, member)]
                   | None => []
                   end).
Proof.
  intros srv pathname q node Hvalid Hhost Hnode Hreadable.
  pose proof (serialize_keys_NoDup (trail node) (focus node)) as Hnodup.
  rewrite (handleGet_selector srv pathname q node) by done.
  assert (Hfull : _handleGet srv pathname "?" = _handleGet srv pathname "").
  { rewrite !handleGet_unfold. reflexivity. }
  rewrite Hfull, handleGet_no_selector, Hnode.
  assert (Htest : unreadable (focus node) && bool_decide (q = "VALUE") = false).
  { destruct (unreadable (focus node)) eqn:Hun; [| done].
    apply bool_decide_eq_false. intros ->. by apply Hreadable. }
  rewrite Htest.
  destruct (serialize (trail node) (focus node)) as [| | | | | | props] eqn:Hser;
    try by (pose proof (serialize_FULL_PATH (trail node) (focus node)) as [? ?];
            congruence).
  simpl in Hnodup.
  exists (JObject (stringify_members props)). split_and!; [done | done |].
  unfold respondJson, jsonResponse. f_equal.
  rewrite JSON_stringify_object. do 2 f_equal. simpl.
  rewrite members_get_stringify by done.
  by destruct (JSON_stringify (props_get q props)).
Qed.

(** X21 on [/audio/volume] of the sample server and the selector
    [RANGE]. *)
Lemma selector_is_projection_witness :
  ∃ document,
    _handleGet sampleServer "/audio/volume" "" = jsonResponse document
    ∧ _handleGet sampleServer "/audio/volume" ("?" +:+ "RANGE") =
      jsonResponse
        (JObject match json_get document "RANGE" with
                 | Some member => [("RANGE", member)]
                 | None => []
                 end).
Proof.
  assert (Hnode : ∃ node, _getNodeForPath sampleServer "/audio/volume" = Some node).
  { eexists. vm_compute. reflexivity. }
  destruct Hnode as (node & Hnode).
  destruct (selector_is_projection sampleServer "/audio/volume" "RANGE" node)
    as (document & Hfull & _ & Hselected).
  - apply (bool_decide_unpack _). vm_compute. exact I.
  - discriminate.
  - exact Hnode.
  - intros [Hq _]. discriminate Hq.
  - exists document. split; [exact Hfull | exact Hselected].
Defined.

(** ** What the value methods and a second [removeMethod] leave alone *)

Section Frames.
Import JsString JsStringFacts.

(** A node that was there is there after a change at a path. *)
Lemma update_at_frame components f :
  (∀ x, _children (f x) = _children x) →
  ∀ node components' x,
    getNode node components' = Some x →
    ∃ x', getNode (update_at components f node) components' = Some x'
          ∧ (¬ components' `prefix_of` components → x' = x)
          ∧ (components' ≠ components → metadata x' = metadata x).
Proof.
  intros Hf. induction components as [| c rest IH];
    intros node [| c' rest'] x Hx; cbn [update_at getNode] in *.
  - exists (f node). split_and!; [done | | done].
    intros []. done.
  - rewrite Hf. exists x. by split_and!.
  - simplify_eq. destruct (_children x !! c) as [child |].
    + eexists. split_and!; [done | | done]. intros []. apply prefix_nil.
    + eexists. by split_and!.
  - destruct (_children node !! c) as [child |] eqn:Hchild;
      [| exists x; by split_and!].
    destruct (_children node !! c') as [child' |] eqn:Hchild'; [| done].
    cbn [getNode].
    destruct (decide (c = c')) as [-> | Hc].
    + rewrite put_child_lookup. simplify_eq.
      destruct (IH child' rest' x Hx) as (x' & Hx' & Hsame & Hmeta).
      exists x'. split_and!; [done | |].
      * intros Hprefix. apply Hsame. intros ?. apply Hprefix. by apply prefix_cons.
      * intros Hne. apply Hmeta. congruence.
    + rewrite put_child_lookup_ne, Hchild' by done. exists x. by split_and!.
Qed.

Lemma setValueAt_children arg_index value x :
  _children (setValueAt arg_index value x) = _children x.
Proof.
  unfold setValueAt.
  destruct (OSCNode_setValue x arg_index value) as [err | x'] eqn:Hset; [done |].
  by apply OSCNode_setValue_same in Hset as [_ ?].
Qed.

Lemma setOpts_setOpts x params params' :
  setOpts (setOpts x params) params' = setOpts x params'.
Proof. reflexivity. Qed.

Lemma prune_unfold c rest node child :
  well_named node →
  _children node !! c = Some child →
  prune (c :: rest) node =
  set_children node
    (if isEmpty (prune rest child) then delete c (_children node)
     else <[c := prune rest child]> (_children node)).
Proof.
  intros Hwf Hchild. cbn [prune]. rewrite Hchild.
  destruct (well_named_child _ _ _ Hwf Hchild) as [Hname _].
  destruct (isEmpty (prune rest child)); [| done].
  rewrite prune_name, Hname.
  unfold removeChild, hasChild, put_child, set_children. simpl.
  rewrite lookup_insert_eq, bool_decide_eq_true_2 by by eexists.
  simpl. by rewrite delete_insert_eq.
Qed.

Lemma prune_prune components : ∀ node,
  well_named node →
  prune components (prune components node) = prune components node.
Proof.
  induction components as [| c rest IH]; intros node Hwf; [done |].
  destruct (_children node !! c) as [child |] eqn:Hchild;
    [| by cbn [prune]; rewrite Hchild; cbn [prune]; rewrite Hchild].
  destruct (well_named_child _ _ _ Hwf Hchild) as [Hname Hwf'].
  rewrite (prune_unfold c rest node child) by done.
  destruct (isEmpty (prune rest child)) eqn:Hempty.
  - cbn [prune]. simpl. by rewrite lookup_delete_eq.
  - cbn [prune]. simpl. rewrite lookup_insert_eq, IH, Hempty by done.
    unfold put_child, set_children. simpl. by rewrite insert_insert_eq.
Qed.

End Frames.



(** X23.  A pattern of the documented form, a base followed by
    ["(!?"], a text without [")"] and without ["(!?"], and a closing
    [")"], matches an address iff the address is the pattern itself, or
    starts with the base and does not contain the text. *)
Theorem pathMatches_documented_negative :
  ∀ (address pattern base text : string),
    FirstOccurrence negativeToken pattern base (text +:+ ")") →
    ¬ Occurs ")" text →
    ¬ Occurs negativeToken text →
    (pathMatches address pattern = true
     ↔ address = pattern ∨ (Prefix base address ∧ ¬ Occurs text address)).
Proof.
  intros address pattern base text Hfirst Hparen Htoken.
  assert (Hexcl : ∀ excl, ExcludeString (text +:+ ")") excl ↔ excl = text).
  { intros excl. rewrite ExcludeString_closed_text by done.
    unfold SpecExcludeString. rewrite JsStringFacts.PieceBefore_find_first.
    assert (Hfind : find_first ")" (text +:+ ")") = Some (text, "")).
    { change (text +:+ ")") with (text +:+ ")" +:+ "").
      by apply JsStringFacts.find_first_unit. }
    by rewrite Hfind. }
  rewrite pathMatches_PatternMatches. split.
  - intros [Hexact | [(prefix & Hpattern & _) | Hnegative]].
    + by left.
    + exfalso.
      assert (Hends : JsString.endsWith pattern "*" = true).
      { apply JsStringFacts.endsWith_Suffix. by exists prefix. }
      destruct Hfirst as [-> _].
      rewrite <- !JsStringFacts.app_assoc in Hends.
      rewrite endsWith_app in Hends by (simpl; lia). done.
    + right.
      destruct Hnegative as (base' & rest' & excl & Hfirst' & Hexcl' & Hpre & Hocc).
      apply JsStringFacts.FirstOccurrence_find_first in Hfirst, Hfirst'.
      assert (base' = base ∧ rest' = text +:+ ")") as [-> ->]
        by (split; congruence).
      apply Hexcl in Hexcl' as ->. done.
  - intros [-> | [Hpre Hocc]]; [by left |].
    right. right. exists base, (text +:+ ")"), text.
    split_and!; [done | by apply Hexcl | done | done].
Qed.

(** X23 on the pattern [/avatar/(!?vrcft)]. *)
Lemma pathMatches_documented_negative_witness :
  pathMatches "/avatar/parameters/vrcft/JawOpen" "/avatar/(!?vrcft)" = true
  ↔ "/avatar/parameters/vrcft/JawOpen" = "/avatar/(!?vrcft)"
    ∨ (Prefix "/avatar/" "/avatar/parameters/vrcft/JawOpen"
       ∧ ¬ Occurs "vrcft" "/avatar/parameters/vrcft/JawOpen").
Proof.
  apply (pathMatches_documented_negative "/avatar/parameters/vrcft/JawOpen"
           "/avatar/(!?vrcft)" "/avatar/" "vrcft").
  - apply JsStringFacts.find_first_Some. reflexivity.
  - apply JsStringFacts.includes_false_Occurs. reflexivity.
  - apply JsStringFacts.includes_false_Occurs. reflexivity.
Defined.

(** X24.  In a tree where every node is stored under its own name,
    removing a method twice is removing it once. *)
Theorem removeMethod_idempotent :
  ∀ (srv : OSCQueryServer) (path : string),
    well_named (_root srv) →
    removeMethod (removeMethod srv path) path = removeMethod srv path.
Proof.
  intros srv path Hwf.
  destruct (_getNodeForPath srv path) as [node |] eqn:Hnode;
    [| by unfold removeMethod; rewrite Hnode, Hnode].
  rewrite (removeMethod_prune _ _ _ Hnode).
  destruct (_getNodeForPath
              (mkOSCQueryServer (_opts srv) (prune (path_split path) (_root srv)))
              path) as [node' |] eqn:Hnode'.
  - rewrite (removeMethod_prune _ _ _ Hnode'). simpl. by rewrite prune_prune.
  - unfold removeMethod at 1. by rewrite Hnode'.
Qed.

(** X24 on [/chatbox] of the sample server. *)
Lemma removeMethod_idempotent_witness :
  removeMethod (removeMethod sampleServer "/chatbox") "/chatbox"
  = removeMethod sampleServer "/chatbox".
Proof.
  exact (removeMethod_idempotent sampleServer "/chatbox" well_named_sampleServer).
Defined.
